(** * Verification of the argument parser of the browser terminal
      (src/js/commands/helloworld.js: classes TerminalParser and Command)

    JavaScript strings are modelled as [list ascii] (the terminal only sees
    ASCII input in everything stated below); JavaScript numbers are the
    primitive binary64 floats of [Stdlib.Floats]; BigInts are [Z].
    Everything the file needs from the JavaScript runtime that is either
    implementation-approximated ([Math.sin], [**], number-to-string) or lives
    in another component (the terminal's [fileExists] / [commandExists]) is a
    field of the record [JsEnv]; the theorems are stated for all such
    environments, and the counterexamples use the sample [sample_env]. *)

From Stdlib Require Import ZArith Floats Bool List Ascii String Lia DecimalString.
Import ListNotations.

Open Scope list_scope.

(* ------------------------------------------------------------------ *)
(** ** JavaScript strings *)

Definition jstr := list ascii.

(** A string literal as a JavaScript string. *)
Definition js (s : string) : jstr := list_ascii_of_string s.

Definition ascii_eqb (a b : ascii) : bool := Ascii.eqb a b.

Fixpoint jstr_eqb (a b : jstr) : bool :=
  match a, b with
  | [], [] => true
  | x :: a', y :: b' => ascii_eqb x y && jstr_eqb a' b'
  | _, _ => false
  end.

(** The double-quote character. *)
Definition dquote : ascii := ascii_of_nat 34.

(** [String.prototype.startsWith] *)
Fixpoint starts_with (s prefix : jstr) : bool :=
  match prefix, s with
  | [], _ => true
  | p :: prefix', c :: s' => ascii_eqb p c && starts_with s' prefix'
  | _ :: _, [] => false
  end.

(** [String.prototype.includes] for a single character *)
Definition includes_char (s : jstr) (c : ascii) : bool :=
  existsb (ascii_eqb c) s.

(** [Array.prototype.includes] on arrays of strings *)
Definition includes_str (l : list jstr) (s : jstr) : bool :=
  existsb (jstr_eqb s) l.

(** [String.prototype.split] with a one-character separator. *)
Fixpoint split_acc (sep : ascii) (s : jstr) (cur : jstr) : list jstr :=
  match s with
  | [] => [cur]
  | c :: s' =>
      if ascii_eqb c sep then cur :: split_acc sep s' []
      else split_acc sep s' (cur ++ [c])
  end.

Definition js_split (s : jstr) (sep : ascii) : list jstr := split_acc sep s [].

(** [String.prototype.slice(b, e)] for [0 <= b], with [e] possibly
    negative (counted from the end) as JavaScript does. *)
Definition slice (s : jstr) (b : nat) (e : Z) : jstr :=
  let len := Z.of_nat (List.length s) in
  let e' := if (e <? 0)%Z then Z.max 0 (len + e) else Z.min e len in
  firstn (Z.to_nat e' - b) (skipn b s).

Definition slice_from (s : jstr) (b : nat) : jstr := skipn b s.

(** [arr[i]] on an array of strings, [None] standing for [undefined]. *)
Definition nth_opt {A} (l : list A) (i : nat) : option A := nth_error l i.

(* ------------------------------------------------------------------ *)
(** ** TerminalParser.tokenize *)

Record TokState := mkTokState {
  tokens : list jstr;
  tempToken : jstr;
  activeApostrophe : option ascii
}.

Definition is_apostrophe (c : ascii) : bool :=
  ascii_eqb c "'"%char || ascii_eqb c dquote.

Definition is_space (c : ascii) : bool :=
  ascii_eqb c " "%char || ascii_eqb c (ascii_of_nat 9) || ascii_eqb c (ascii_of_nat 10).

(** One iteration of [for (let char of input)]. *)
Definition tokenize_step (st : TokState) (c : ascii) : TokState :=
  match activeApostrophe st with
  | Some q =>
      if ascii_eqb c q
      then mkTokState (tokens st ++ [tempToken st]) [] None
      else mkTokState (tokens st) (tempToken st ++ [c]) (Some q)
  | None =>
      if is_apostrophe c then mkTokState (tokens st) (tempToken st) (Some c)
      else if is_space c then
        (if negb (jstr_eqb (tempToken st) [])
         then mkTokState (tokens st ++ [tempToken st]) [] None
         else st)
      else mkTokState (tokens st) (tempToken st ++ [c]) None
  end.

Definition tokenize_run (input : jstr) (st : TokState) : TokState :=
  fold_left tokenize_step input st.

Definition tokenize (input : jstr) : list jstr :=
  let st := tokenize_run input (mkTokState [] [] None) in
  if negb (jstr_eqb (tempToken st) []) then tokens st ++ [tempToken st]
  else tokens st.

(* ------------------------------------------------------------------ *)
(** ** The JavaScript runtime the parser relies on *)

(** A value handed to [_parseArgumentValue]: a token string, or the literal
    [true] that the named-argument pass passes for flags. *)
Inductive ArgInput :=
| InToken (s : jstr)
| InTrue.

(** Builtins whose results ECMAScript leaves implementation-approximated,
    and the two predicates the terminal supplies. *)
Record JsEnv := mkJsEnv {
  math_sqrt : float -> float;
  math_sin : float -> float;
  math_cos : float -> float;
  math_tan : float -> float;
  math_asin : float -> float;
  math_acos : float -> float;
  math_atan : float -> float;
  math_sinh : float -> float;
  math_cosh : float -> float;
  math_tanh : float -> float;
  math_asinh : float -> float;
  math_acosh : float -> float;
  math_atanh : float -> float;
  (** the [**] operator *)
  js_pow : float -> float -> float;
  (** [Number.prototype.toString] *)
  number_to_string : float -> jstr;
  (** [terminal.fileExists] and [terminal.commandExists] *)
  file_exists : ArgInput -> bool;
  command_exists : ArgInput -> bool
}.

(* ------------------------------------------------------------------ *)
(** ** Numbers: literals and the builtins [parseInt] / [parseFloat] *)

(** The binary64 number nearest to [n / d] ([n >= 0], [d > 0]), ties to
    even, negated when [neg]: the rounding of ECMAScript's
    [RoundMVResult] / [𝔽(x)]. *)
Definition round_q (neg : bool) (n d : Z) : float :=
  if (n =? 0)%Z then (if neg then (-0)%float else 0%float) else
  let e0 := (Z.log2 n - Z.log2 d - 53)%Z in
  let q_at e := ((n * 2 ^ Z.max 0 (- e)) / (d * 2 ^ Z.max 0 e))%Z in
  let e1 := if (2 ^ 53 <=? q_at e0)%Z then (e0 + 1)%Z else e0 in
  let e := Z.max e1 (-1074) in
  let num := (n * 2 ^ Z.max 0 (- e))%Z in
  let den := (d * 2 ^ Z.max 0 e)%Z in
  let q := (num / den)%Z in
  let r := (num mod den)%Z in
  let q' := if orb (den <? 2 * r)%Z (andb (2 * r =? den)%Z (Z.odd q))
            then (q + 1)%Z else q in
  SF2Prim (binary_normalize 53 1024 (if neg then (- q')%Z else q') e neg).

Definition float_of_Z (z : Z) : float :=
  match z with
  | Z0 => 0%float
  | Zpos p => round_q false (Zpos p) 1
  | Zneg p => round_q true (Zpos p) 1
  end.

Definition digit_value (c : ascii) : Z :=
  let n := Z.of_nat (nat_of_ascii c) in
  if (48 <=? n)%Z && (n <=? 57)%Z then (n - 48)%Z
  else if (97 <=? n)%Z && (n <=? 102)%Z then (n - 87)%Z
  else if (65 <=? n)%Z && (n <=? 70)%Z then (n - 55)%Z
  else 99%Z.

Definition is_digit (c : ascii) : bool := (digit_value c <? 10)%Z.

(** The characters of the regex class [[0123456789abcdef]]. *)
Definition is_lower_hex (c : ascii) : bool :=
  let n := nat_of_ascii c in
  (Nat.leb 48 n && Nat.leb n 57) || (Nat.leb 97 n && Nat.leb n 102).

Definition is_bin_digit (c : ascii) : bool :=
  ascii_eqb c "0"%char || ascii_eqb c "1"%char.

(** The integer written by a digit string in base [radix]. *)
Definition digits_value (radix : Z) (s : jstr) : Z :=
  fold_left (fun acc c => (acc * radix + digit_value c)%Z) s 0%Z.

(** [parseInt(s, radix)] on a string made of digits of that radix only
    (the only way the parser calls it). *)
Definition parse_int_digits (radix : Z) (s : jstr) : float :=
  float_of_Z (digits_value radix s).

(** [parseFloat]: the longest prefix of the trimmed string that is a
    StrDecimalLiteral, rounded to nearest; NaN when there is none. *)
Definition is_str_whitespace (c : ascii) : bool :=
  let n := nat_of_ascii c in
  (Nat.leb 9 n && Nat.leb n 13) || Nat.eqb n 32 || Nat.eqb n 160.

Fixpoint take_digits (s : jstr) : jstr * jstr :=
  match s with
  | c :: s' => if is_digit c then let (a, b) := take_digits s' in (c :: a, b) else ([], s)
  | [] => ([], [])
  end.

(** The optional exponent part [e[+-]digits]; [0] when absent. *)
Definition exponent_part (s : jstr) : Z :=
  match s with
  | c :: s' =>
      if ascii_eqb c "e"%char || ascii_eqb c "E"%char then
        let '(sg, s'') :=
          match s' with
          | d :: t => if ascii_eqb d "-"%char then (true, t)
                      else if ascii_eqb d "+"%char then (false, t) else (false, s')
          | [] => (false, [])
          end in
        let (ds, _) := take_digits s'' in
        match ds with
        | [] => 0%Z
        | _ => let v := digits_value 10 ds in if sg then (- v)%Z else v
        end
      else 0%Z
  | [] => 0%Z
  end.

(** [digits * 10^scale] rounded, with the magnitudes beyond the range of
    binary64 settled first. *)
Definition decimal_to_float (neg : bool) (ds : jstr) (scale : Z) : float :=
  let m := digits_value 10 ds in
  if (m =? 0)%Z then (if neg then (-0)%float else 0%float)
  else if (310 <? scale)%Z then (if neg then neg_infinity else infinity)
  else if (scale + Z.of_nat (List.length ds) <? -330)%Z
  then (if neg then (-0)%float else 0%float)
  else if (0 <=? scale)%Z then round_q neg (m * 10 ^ scale) 1
  else round_q neg m (10 ^ (- scale)).

Fixpoint drop_while (p : ascii -> bool) (s : jstr) : jstr :=
  match s with
  | c :: s' => if p c then drop_while p s' else s
  | [] => []
  end.

Definition parse_float (s0 : jstr) : float :=
  let s1 := drop_while is_str_whitespace s0 in
  let '(neg, s) :=
    match s1 with
    | c :: t => if ascii_eqb c "-"%char then (true, t)
                else if ascii_eqb c "+"%char then (false, t) else (false, s1)
    | [] => (false, [])
    end in
  if starts_with s (js "Infinity") then (if neg then neg_infinity else infinity)
  else
    let (int_ds, rest) := take_digits s in
    let '(frac_ds, rest') :=
      match rest with
      | c :: t => if ascii_eqb c "."%char then take_digits t else ([], rest)
      | [] => ([], [])
      end in
    match int_ds ++ frac_ds with
    | [] => nan
    | ds => decimal_to_float neg ds (exponent_part rest' - Z.of_nat (List.length frac_ds))
    end.

(* ------------------------------------------------------------------ *)
(** ** The regular expressions of [_parseNumber] *)

Definition nonempty_all (p : ascii -> bool) (s : jstr) : bool :=
  match s with [] => false | _ => forallb p s end.

Fixpoint break_at (sep : ascii) (s : jstr) : jstr * jstr :=
  match s with
  | c :: s' => if ascii_eqb c sep then ([], s) else let (a, b) := break_at sep s' in (c :: a, b)
  | [] => ([], [])
  end.

(** [/^P+\.P+$/] for a character class [P] without the dot. *)
Definition match_point (p : ascii -> bool) (s : jstr) : bool :=
  match break_at "."%char s with
  | (a, _ :: b) => nonempty_all p a && nonempty_all p b
  | (_, []) => false
  end.

Definition with_prefix (pre : jstr) (m : jstr -> bool) (s : jstr) : bool :=
  starts_with s pre && m (skipn (List.length pre) s).

Definition decimalRegex : jstr -> bool := match_point is_digit.
Definition intRegex : jstr -> bool := nonempty_all is_digit.
Definition hexDecimalRegex : jstr -> bool := with_prefix (js "0x") (match_point is_lower_hex).
Definition hexIntRegex : jstr -> bool := with_prefix (js "0x") (nonempty_all is_lower_hex).
Definition binDecimalRegex : jstr -> bool := with_prefix (js "0b") (match_point is_bin_digit).
Definition binIntRegex : jstr -> bool := with_prefix (js "0b") (nonempty_all is_bin_digit).

(** [/^\-?[0123456789]+(\.[0123456789]+)?e[0123456789]+$/] *)
Definition scientificRegex (s : jstr) : bool :=
  let s' := match s with c :: t => if ascii_eqb c "-"%char then t else s | [] => [] end in
  match break_at "e"%char s' with
  | (m, _ :: ex) => (intRegex m || decimalRegex m) && intRegex ex
  | (_, []) => false
  end.

(* ------------------------------------------------------------------ *)
(** ** TerminalParser._parseNumber *)

(** [_parseNumber] returns a number, or the sentinel [ParserError] after
    recording a message through the [error] callback; [NumOutOfFuel] is
    the exhausted-fuel case of the embedding (never reached, see
    [parse_number_sentinel]). *)
Inductive NumResult :=
| NumOk (v : float)
| NumErr (msg : jstr)
| NumOutOfFuel.

(** [`At property "${argOption.name}": ${text}`] *)
Definition prop_msg (name : jstr) (text : string) : jstr :=
  js "At property " ++ [dquote] ++ name ++ [dquote] ++ js ": " ++ js text.

Definition math_PI : float := 0x1.921fb54442d18p+1%float.
Definition math_E : float := 0x1.5bf0a8b145769p+1%float.

Record MathFunction := mkMathFunction {
  compute : float -> float;
  (** each constraint: its condition and the text of its error *)
  constraints : list ((float -> bool) * string)
}.

Definition outside_unit (n : float) : bool :=
  PrimFloat.ltb n (-1)%float || PrimFloat.ltb 1%float n.

(** [allowedFunctions], in the insertion order [Object.entries] yields. *)
Definition allowedFunctions (env : JsEnv) : list (jstr * MathFunction) :=
  [ (js "sqrt", mkMathFunction (math_sqrt env)
       [(fun n => PrimFloat.ltb n 0%float, "sqrt is only defined on [0, inf)"%string)]);
    (js "sin", mkMathFunction (math_sin env) []);
    (js "cos", mkMathFunction (math_cos env) []);
    (js "tan", mkMathFunction (math_tan env) []);
    (js "arcsin", mkMathFunction (math_asin env)
       [(outside_unit, "arcsin is only defined on [-1, 1]"%string)]);
    (js "arccos", mkMathFunction (math_acos env)
       [(outside_unit, "arccos is only defined on [-1, 1]"%string)]);
    (js "arctan", mkMathFunction (math_atan env) []);
    (js "sinh", mkMathFunction (math_sinh env) []);
    (js "cosh", mkMathFunction (math_cosh env) []);
    (js "tanh", mkMathFunction (math_tanh env) []);
    (js "arcsinh", mkMathFunction (math_asinh env) []);
    (js "arccosh", mkMathFunction (math_acosh env)
       [(fun n => PrimFloat.ltb n 1%float, "arccosh is only defined on [1, inf)"%string)]);
    (js "arctanh", mkMathFunction (math_atanh env)
       [(fun n => PrimFloat.leb n (-1)%float || PrimFloat.leb 1%float n,
         "arctanh is only defined on (-1, 1)"%string)]);
    ([], mkMathFunction (fun n => n) []) ].

(** The bracket check on [numberPart]: [true] when [openCount] drops below
    zero somewhere (the closing bracket does not belong to the call). *)
Fixpoint closes_early (s : jstr) (openCount : Z) : bool :=
  match s with
  | [] => false
  | c :: s' =>
      let o := if ascii_eqb c "("%char then (openCount + 1)%Z
               else if ascii_eqb c ")"%char then (openCount - 1)%Z else openCount in
      if (o <? 0)%Z then true else closes_early s' o
  end.

Definition first_constraint (cs : list ((float -> bool) * string)) (v : float)
  : option string :=
  match find (fun c => fst c v) cs with
  | Some c => Some (snd c)
  | None => None
  end.

(** The scan of one operator pass: [None] when the depth drops below zero
    ([Unbalanced parentheses] on the spot), otherwise the final depth and
    the last index at depth 0 holding the operator ([foundSplitIndex]). *)
Fixpoint scan_op (op : ascii) (s : jstr) (i : nat) (currLevel : Z)
    (foundSplitIndex : option nat) : option (Z * option nat) :=
  match s with
  | [] => Some (currLevel, foundSplitIndex)
  | c :: s' =>
      let l1 := if ascii_eqb c "("%char then (currLevel + 1)%Z else currLevel in
      let l2 := if ascii_eqb c ")"%char then (l1 - 1)%Z else l1 in
      if (l2 <? 0)%Z then None
      else scan_op op s' (S i) l2
             (if ascii_eqb c op && (l2 =? 0)%Z then Some i else foundSplitIndex)
  end.

(** [operators], in anti-precedence order. *)
Definition operators (env : JsEnv) : list (ascii * (float -> float -> float)) :=
  [ ("+"%char, PrimFloat.add); ("-"%char, PrimFloat.sub); ("*"%char, PrimFloat.mul);
    ("/"%char, PrimFloat.div); ("^"%char, js_pow env) ].

Definition radix_point_value (env : JsEnv) (radix : Z) (s : jstr) : float :=
  let (before, rest) := break_at "."%char s in
  let after := match rest with _ :: a => a | [] => [] end in
  let beforeVal := parse_int_digits radix (skipn 2 before) in
  let afterVal := parse_int_digits radix after in
  PrimFloat.add beforeVal
    (PrimFloat.div afterVal (js_pow env (float_of_Z radix) (float_of_Z (Z.of_nat (List.length after))))).

Definition scientific_value (env : JsEnv) (s : jstr) : float :=
  let (decimal, rest) := break_at "e"%char s in
  let exponent := match rest with _ :: ex => ex | [] => [] end in
  PrimFloat.mul (parse_float decimal)
    (js_pow env 10%float (parse_int_digits 10 exponent)).

Section ParseNumberBody.
Variable env : JsEnv.
(** the owning option's name, for the messages *)
Variable name : jstr.
(** the recursive call [this._parseNumber(_, argOption, error)] *)
Variable rec : jstr -> NumResult.
Variable s : jstr.

(** The loop over [Object.entries(allowedFunctions)]; [None] when no
    function call matched. *)
Fixpoint try_functions (fs : list (jstr * MathFunction)) : option NumResult :=
  match fs with
  | [] => None
  | (fname, func) :: fs' =>
      if starts_with s (fname ++ js "(") then
        let numberPart := slice s (List.length fname + 1) (-1)%Z in
        if closes_early numberPart 0 then try_functions fs'
        else Some
          match rec numberPart with
          | NumOk v =>
              match first_constraint (constraints func) v with
              | Some text => NumErr (prop_msg name text)
              | None => NumOk (compute func v)
              end
          | r => r
          end
      else try_functions fs'
  end.

(** The loop over [operators]. *)
Fixpoint try_operators (ops : list (ascii * (float -> float -> float))) : NumResult :=
  match ops with
  | [] => NumErr (prop_msg name "Invalid number"%string)
  | (op, opf) :: ops' =>
      match scan_op op s 0 0 None with
      | None => NumErr (prop_msg name "Unbalanced parentheses"%string)
      | Some (lvl, found) =>
          if negb (lvl =? 0)%Z then NumErr (prop_msg name "Unbalanced parentheses"%string)
          else match found with
          | None => try_operators ops'
          | Some idx =>
              match rec (firstn idx s) with
              | NumOk a =>
                  match rec (slice_from s (S idx)) with
                  | NumOk b =>
                      if PrimFloat.eqb b 0 && ascii_eqb op "/"%char
                      then NumErr (prop_msg name "Can't divide by zero"%string)
                      else NumOk (opf a b)
                  | r => r
                  end
              | r => r
              end
          end
      end
  end.

(** The body of [_parseNumber]. *)
Definition parse_number_body : NumResult :=
  if jstr_eqb s (js "pi") then NumOk math_PI
  else if jstr_eqb s (js "tau") then NumOk (PrimFloat.mul 2 math_PI)
  else if jstr_eqb s (js "phi") then NumOk (PrimFloat.div (PrimFloat.add 1 (math_sqrt env 5)) 2)
  else if jstr_eqb s (js "e") then NumOk math_E
  else if jstr_eqb s (js "inf") then NumErr (prop_msg name "Infinity is not a number"%string)
  else if starts_with s (js "-") then
    match rec (slice_from s 1) with
    | NumOk v => NumOk (PrimFloat.opp v)
    | r => r
    end
  else
  match try_functions (allowedFunctions env) with
  | Some r => r
  | None =>
  if intRegex s then NumOk (parse_int_digits 10 s)
  else if hexIntRegex s then NumOk (parse_int_digits 16 (skipn 2 s))
  else if binIntRegex s then NumOk (parse_int_digits 2 (skipn 2 s))
  else if decimalRegex s then NumOk (parse_float s)
  else if binDecimalRegex s then NumOk (radix_point_value env 2 s)
  else if hexDecimalRegex s then NumOk (radix_point_value env 16 s)
  else if scientificRegex s then NumOk (scientific_value env s)
  else try_operators (operators env)
  end.
End ParseNumberBody.

Fixpoint parse_number (env : JsEnv) (fuel : nat) (name : jstr) (s : jstr) : NumResult :=
  match fuel with
  | O => NumOutOfFuel
  | S f => parse_number_body env name (parse_number env f name) s
  end.

(** [TerminalParser._parseNumber(numberString, argOption, error)]: every
    recursive call is on a strictly shorter string, so [length + 1] units
    of fuel always suffice. *)
Definition parseNumber (env : JsEnv) (name : jstr) (s : jstr) : NumResult :=
  parse_number env (S (List.length s)) name s.

(* ------------------------------------------------------------------ *)
(** ** JavaScript values, exceptions and the error monad *)

(** The values an option can hold. *)
Inductive jsval :=
| JUndefined
| JBool (b : bool)
| JNum (f : float)
| JBigInt (z : Z)
| JStr (s : jstr)
| JArray (l : list jsval).

(** Thrown values: the three error classes of the file, the runtime's
    [TypeError] / [RangeError], any other error object, and a thrown
    [null] / [undefined]. *)
Inductive thrown :=
| DeveloperError (msg : jstr)
| IntendedError
| TypeError
| RangeError
| OtherError (name msg : jstr)
| ThrownNullish.

Inductive Result (A : Type) :=
| Ok (a : A)
| Throw (e : thrown).
Arguments Ok {A} a.
Arguments Throw {A} e.

Definition bind {A B} (m : Result A) (k : A -> Result B) : Result B :=
  match m with Ok a => k a | Throw e => Throw e end.

Notation "x <- m ;; k" := (bind m (fun x => k)) (at level 61, m at next level, right associativity).

Definition bool_to_jstr (b : bool) : jstr := if b then js "true" else js "false".

Definition Z_to_jstr (z : Z) : jstr :=
  list_ascii_of_string (NilEmpty.string_of_int (Z.to_int z)).

(** [String(v)], as used by the [+] in [argOption.value + " " + value]. *)
Fixpoint to_js_string (env : JsEnv) (v : jsval) : jstr :=
  match v with
  | JUndefined => js "undefined"
  | JBool b => bool_to_jstr b
  | JNum f => number_to_string env f
  | JBigInt z => Z_to_jstr z
  | JStr s => s
  | JArray l =>
      (fix join (l : list jsval) : jstr :=
         match l with
         | [] => []
         | [x] => match x with JUndefined => [] | _ => to_js_string env x end
         | x :: l' => match x with JUndefined => [] | _ => to_js_string env x end
                      ++ js "," ++ join l'
         end) l
  end.

Definition truthy (v : jsval) : bool :=
  match v with
  | JUndefined => false
  | JBool b => b
  | JNum f => negb (is_zero f || is_nan f)
  | JBigInt z => negb (z =? 0)%Z
  | JStr s => negb (jstr_eqb s [])
  | JArray _ => true
  end.

Definition input_to_jsval (v : ArgInput) : jsval :=
  match v with InToken s => JStr s | InTrue => JBool true end.

Definition input_to_jstr (v : ArgInput) : jstr :=
  match v with InToken s => s | InTrue => js "true" end.

(* ------------------------------------------------------------------ *)
(** ** Argument options: TerminalParser.parseArgOptions *)

Inductive ArgType :=
| TString | TNumber | TBigint | TBoolean | TFile | TCommand
| TSquareMatrix | TMatrix | TEnum.

Record ArgOption := mkArgOption {
  name : jstr;
  type : ArgType;
  typeName : jstr;
  stringType : option jstr;
  optional : bool;
  min : option float;
  max : option float;
  expanding : bool;
  (** [numtype == "integer"] *)
  numtypeInteger : bool;
  default : jsval;
  forms : list jstr;
  isHelp : bool;
  description : jstr;
  enumOptions : option (list jstr);
  tokenIndex : option nat;
  tokenSpan : nat;
  value : jsval;
  isManuallySetValue : bool;
  hasExpanded : bool
}.
(* the field [error] of the source is set to undefined and never read *)

Definition set_value (o : ArgOption) (v : jsval) (manual : bool) : ArgOption :=
  {| name := name o; type := type o; typeName := typeName o; stringType := stringType o;
     optional := optional o; min := min o; max := max o; expanding := expanding o;
     numtypeInteger := numtypeInteger o; default := default o; forms := forms o;
     isHelp := isHelp o; description := description o; enumOptions := enumOptions o;
     tokenIndex := tokenIndex o; tokenSpan := tokenSpan o; value := v;
     isManuallySetValue := manual; hasExpanded := hasExpanded o |}.

Definition set_token (o : ArgOption) (idx : option nat) (span : nat) (expanded : bool)
  : ArgOption :=
  {| name := name o; type := type o; typeName := typeName o; stringType := stringType o;
     optional := optional o; min := min o; max := max o; expanding := expanding o;
     numtypeInteger := numtypeInteger o; default := default o; forms := forms o;
     isHelp := isHelp o; description := description o; enumOptions := enumOptions o;
     tokenIndex := idx; tokenSpan := span; value := value o;
     isManuallySetValue := isManuallySetValue o; hasExpanded := expanded |}.

Definition set_default (o : ArgOption) (v : jsval) : ArgOption :=
  {| name := name o; type := type o; typeName := typeName o; stringType := stringType o;
     optional := optional o; min := min o; max := max o; expanding := expanding o;
     numtypeInteger := numtypeInteger o; default := v; forms := forms o;
     isHelp := isHelp o; description := description o; enumOptions := enumOptions o;
     tokenIndex := tokenIndex o; tokenSpan := tokenSpan o; value := v;
     isManuallySetValue := isManuallySetValue o; hasExpanded := hasExpanded o |}.

Definition set_description (o : ArgOption) (d : jstr) : ArgOption :=
  {| name := name o; type := type o; typeName := typeName o; stringType := stringType o;
     optional := optional o; min := min o; max := max o; expanding := expanding o;
     numtypeInteger := numtypeInteger o; default := default o; forms := forms o;
     isHelp := isHelp o; description := d; enumOptions := enumOptions o;
     tokenIndex := tokenIndex o; tokenSpan := tokenSpan o; value := value o;
     isManuallySetValue := isManuallySetValue o; hasExpanded := hasExpanded o |}.

Definition set_tokenIndex (o : ArgOption) (i : nat) : ArgOption :=
  set_token o (Some i) (tokenSpan o) (hasExpanded o).

(** The type-code dispatch: [type], [typeName], integer [numtype] and
    [stringType], or [None] for an unknown code. *)
Definition type_of_code (code : jstr) : option (ArgType * jstr * bool * option jstr) :=
  if jstr_eqb code (js "n") then Some (TNumber, js "number", false, None)
  else if jstr_eqb code (js "i") then Some (TNumber, js "integer", true, None)
  else if jstr_eqb code (js "bn") then Some (TBigint, js "integer", false, None)
  else if jstr_eqb code (js "b") then Some (TBoolean, js "boolean", false, None)
  else if jstr_eqb code (js "s") then Some (TString, js "string", false, None)
  else if jstr_eqb code (js "f") then Some (TFile, js "file", false, None)
  else if jstr_eqb code (js "c") then Some (TCommand, js "command", false, None)
  else if jstr_eqb code (js "sm") then Some (TSquareMatrix, js "square-matrix", false, None)
  else if jstr_eqb code (js "m") then Some (TMatrix, js "matrix", false, None)
  else if jstr_eqb code (js "e") then Some (TEnum, js "enum", false, None)
  else if jstr_eqb code (js "t") then Some (TString, js "string", false, Some (js "text"))
  else None.

Definition nth_str (l : list jstr) (i : nat) : jstr := nth i l [].

Definition parseArgOptions (argString : jstr) : Result ArgOption :=
  let '(opt, n1) := if starts_with argString (js "?") then (true, slice_from argString 1)
                    else (false, argString) in
  let '(exp, n2) := if starts_with n1 (js "*") then (true, slice_from n1 1) else (false, n1) in
  r <- (if includes_char n2 ":"%char then
          let parts := js_split n2 ":"%char in
          let code := nth_str parts 1 in
          match type_of_code code with
          | None => Throw (DeveloperError (js "Invalid argument type: " ++ code))
          | Some (ty, tn, isInt, st) =>
              let '(mn, mx, en) :=
                if Nat.ltb 2 (List.length parts) then
                  match ty with
                  | TNumber =>
                      let range := nth_str parts 2 in
                      if includes_char range "~"%char then
                        let rangeParts := js_split range "~"%char in
                        (Some (parse_float (nth_str rangeParts 0)),
                         Some (parse_float (nth_str rangeParts 1)), None)
                      else (Some (parse_float range), Some (parse_float range), None)
                  | TEnum => (None, None, Some (js_split (nth_str parts 2) "|"%char))
                  | _ => (None, None, None)
                  end
                else (None, None, None) in
              Ok (nth_str parts 0, ty, tn, isInt, st, mn, mx, en)
          end
        else Ok (n2, TString, js "string", false, None, None, None, None)) ;;
  let '(nm0, ty, tn, isInt, st, mn, mx, en) := r in
  let '(nm, fs) := if includes_char nm0 "="%char
                   then (nth_str (js_split nm0 "="%char) 1, js_split nm0 "="%char)
                   else (nm0, [nm0]) in
  Ok {| name := nm; type := ty; typeName := tn; stringType := st; optional := opt;
        min := mn; max := mx; expanding := exp; numtypeInteger := isInt;
        default := JUndefined; forms := fs;
        isHelp := jstr_eqb nm (js "help") || jstr_eqb nm (js "h");
        description := []; enumOptions := en; tokenIndex := None; tokenSpan := 0;
        value := JUndefined; isManuallySetValue := false; hasExpanded := false |}.

(* ------------------------------------------------------------------ *)
(** ** TerminalParser._parseArgumentValue *)

Record ParsingError := mkParsingError {
  message : option jstr;
  errTokenIndex : option Z;
  errTokenSpan : Z
}.

Definition no_error : ParsingError := mkParsingError None None 0%Z.

(** [BigInt(string)] (StringToBigInt): [None] when it throws. *)
Definition string_to_bigint (s0 : jstr) : option Z :=
  let s := rev (drop_while is_str_whitespace (rev (drop_while is_str_whitespace s0))) in
  let radix_lit (radix : Z) (ds : jstr) :=
    if nonempty_all (fun c => (digit_value c <? radix)%Z) ds
    then Some (digits_value radix ds) else None in
  let prefixed (lo up : ascii) := starts_with s ["0"%char; lo] || starts_with s ["0"%char; up] in
  match s with
  | [] => Some 0%Z
  | c :: ds =>
      if prefixed "x"%char "X"%char then radix_lit 16%Z (skipn 2 s)
      else if prefixed "o"%char "O"%char then radix_lit 8%Z (skipn 2 s)
      else if prefixed "b"%char "B"%char then radix_lit 2%Z (skipn 2 s)
      else if ascii_eqb c "-"%char then option_map Z.opp (radix_lit 10%Z ds)
      else if ascii_eqb c "+"%char then radix_lit 10%Z ds
      else radix_lit 10%Z s
  end.

(** A cell of the matrix regex: [(-?[0-9]+(\.[0-9]+)?)]. *)
Definition matrix_number_cell (s : jstr) : bool :=
  let s' := match s with c :: t => if ascii_eqb c "-"%char then t else s | [] => [] end in
  intRegex s' || decimalRegex s'.

Definition matrix_cell (s : jstr) : bool :=
  matrix_number_cell s ||
  match s with
  | [c] => Nat.leb 97 (nat_of_ascii c) && Nat.leb (nat_of_ascii c) 122
  | _ => false
  end.

(** The matrix regex of [_parseArgumentValue]: a bracketed body whose
    ['/']-separated rows are non-empty [',']-separated lists of cells. *)
Definition matrixRegex (s : jstr) : bool :=
  match s with
  | c :: rest =>
      ascii_eqb c "["%char &&
      match rev rest with
      | d :: body_rev =>
          ascii_eqb d "]"%char &&
          forallb (fun row => forallb matrix_cell (js_split row ","%char))
                  (js_split (rev body_rev) "/"%char)
      | [] => false
      end
  | [] => false
  end.

Definition matrix_rows (s : jstr) : list (list jsval) :=
  let str := slice s 1 (Z.of_nat (List.length s) - 1) in
  map (fun rowStr =>
         map (fun v => if matrix_number_cell v then JNum (parse_float v) else JStr v)
             (js_split rowStr ","%char))
      (js_split str "/"%char).

Definition quoted (pre : string) (v : jstr) : jstr := js pre ++ [dquote] ++ v ++ [dquote].

(** [Number.isInteger] on a finite number. *)
Definition float_is_integer (f : float) : bool :=
  match Prim2SF f with
  | S754_zero _ => true
  | S754_finite _ m e => (0 <=? e)%Z || (Zpos m mod 2 ^ (- e) =? 0)%Z
  | _ => false
  end.

Section ParseArgumentValue.
Variable env : JsEnv.
Variable argOption : ArgOption.
Variable parsingError : ParsingError.

Definition error (msg : jstr) : Result (ArgOption * ParsingError) :=
  Ok (argOption, mkParsingError (Some msg) (option_map Z.of_nat (tokenIndex argOption))
                             (Z.of_nat (tokenSpan argOption))).

Definition addVal (v : jsval) : Result (ArgOption * ParsingError) :=
  let v' := if expanding argOption && truthy (value argOption)
            then JStr (to_js_string env (value argOption) ++ js " " ++ to_js_string env v)
            else v in
  Ok (set_value argOption v' true, parsingError).

Definition check_max (num : float) : Result (ArgOption * ParsingError) :=
  match max argOption with
  | Some m => if PrimFloat.ltb m num
              then error (prop_msg (name argOption) "Number must be at most "
                          ++ number_to_string env m)
              else addVal (JNum num)
  | None => addVal (JNum num)
  end.

Definition parse_number_value (num : float) : Result (ArgOption * ParsingError) :=
  let nm := name argOption in
  if negb (is_finite num) then error (prop_msg nm "Infinity isn't a number")
  else if is_nan num then error (prop_msg nm "Not a number")
  else if numtypeInteger argOption && negb (float_is_integer num)
  then error (prop_msg nm "Expected an integer")
  else match min argOption with
  | Some m => if PrimFloat.ltb num m
              then error (prop_msg nm "Number must be at least " ++ number_to_string env m)
              else check_max num
  | None => check_max num
  end.

Definition _parseArgumentValue (v : ArgInput) : Result (ArgOption * ParsingError) :=
  match type argOption with
  | TNumber =>
      match v with
      | InTrue => Throw TypeError   (* [true.startsWith] is not a function *)
      | InToken s =>
          match parseNumber env (name argOption) s with
          | NumErr m => error m
          | NumOutOfFuel => Throw RangeError
          | NumOk num => parse_number_value num
          end
      end
  | TBoolean =>
      match v with
      | InTrue => addVal (JBool true)
      | InToken s =>
          if includes_str [js "true"; js "1"] s then addVal (JBool true)
          else if includes_str [js "false"; js "0"] s then addVal (JBool false)
          else error (prop_msg (name argOption) "Expected a boolean")
      end
  | TBigint =>
      match v with
      | InTrue => addVal (JBigInt 1)
      | InToken s =>
          match string_to_bigint s with
          | Some z => addVal (JBigInt z)
          | None => error (prop_msg (name argOption) "Expected an integer")
          end
      end
  | TFile =>
      if negb (file_exists env v) then error (quoted "File not found: " (input_to_jstr v))
      else addVal (input_to_jsval v)
  | TCommand =>
      if negb (command_exists env v) then error (quoted "Command not found: " (input_to_jstr v))
      else addVal (input_to_jsval v)
  | TEnum =>
      match enumOptions argOption with
      | None => Throw TypeError   (* [undefined.includes] *)
      | Some opts =>
          match v with
          | InToken s =>
              if includes_str opts s then addVal (JStr s)
              else error (quoted "Invalid Option: " s)
          | InTrue => error (quoted "Invalid Option: " (js "true"))
          end
      end
  | TMatrix | TSquareMatrix =>
      let s := input_to_jstr v in
      if negb (matrixRegex s) then error (js "Invalid matrix. Use syntax: [1,2/a,4]")
      else
        let rows := matrix_rows s in
        let w := List.length (nth 0 rows []) in
        if existsb (fun row => negb (Nat.eqb (List.length row) w)) rows
        then error (js "Matrix must have equal sized rows.")
        else if (match type argOption with TSquareMatrix => true | _ => false end)
                && negb (Nat.eqb (List.length rows) w)
        then error (js "Matrix must be square.")
        else addVal (JArray (map JArray rows))
  | TString => addVal (input_to_jsval v)
  end.
End ParseArgumentValue.

(* ------------------------------------------------------------------ *)
(** ** TerminalParser.getArgOption and TerminalParser.parseNamedArgs *)

(** [argOptions.find(arg => arg.name == argName || arg.forms.includes(argName))],
    as the index of the object found (the source mutates it in place). *)
Fixpoint getArgOption (argOptions : list ArgOption) (argName : jstr) : option nat :=
  match argOptions with
  | [] => None
  | o :: os =>
      if jstr_eqb (name o) argName || includes_str (forms o) argName then Some 0
      else option_map S (getArgOption os argName)
  end.

Fixpoint update_nth {A} (l : list A) (k : nat) (f : A -> A) : list A :=
  match l, k with
  | [], _ => []
  | x :: l', O => f x :: l'
  | x :: l', S k' => x :: update_nth l' k' f
  end.

(** [/^--?[a-zA-Z][a-zA-Z0-9:_\-:.]*$/] *)
Definition is_letter (c : ascii) : bool :=
  let n := nat_of_ascii c in (Nat.leb 65 n && Nat.leb n 90) || (Nat.leb 97 n && Nat.leb n 122).

Definition is_flag_rest_char (c : ascii) : bool :=
  is_letter c || is_digit c || ascii_eqb c ":"%char || ascii_eqb c "_"%char
  || ascii_eqb c "-"%char || ascii_eqb c "."%char.

Definition flag_body (s : jstr) : bool :=
  match s with c :: r => is_letter c && forallb is_flag_rest_char r | [] => false end.

Definition is_flag_token (s : jstr) : bool :=
  match s with
  | c :: r => ascii_eqb c "-"%char &&
              (flag_body r || match r with d :: r' => ascii_eqb d "-"%char && flag_body r'
                                         | [] => false end)
  | [] => false
  end.

(** The state the pass mutates: the option objects and [parsingError]. *)
Definition PState := (list ArgOption * ParsingError)%type.

Definition has_error (st : PState) : bool :=
  match message (snd st) with Some m => negb (jstr_eqb m []) | None => false end.

Definition set_perr (st : PState) (msg : jstr) (idx : option nat) (span : Z) : PState :=
  (fst st, mkParsingError (Some msg) (option_map Z.of_nat idx) span).

Section NamedArgs.
Variable env : JsEnv.

(** [_parseArgumentValue] on the option object at index [k], written back. *)
Definition apply_value (st : PState) (k : nat) (v : ArgInput) : Result PState :=
  let '(opts, perr) := st in
  match nth_error opts k with
  | None => Ok st
  | Some o =>
      r <- _parseArgumentValue env o perr v ;;
      let '(o', perr') := r in
      Ok (update_nth opts k (fun _ => o'), perr')
  end.

Definition expects_value_msg (o : ArgOption) : jstr :=
  quoted "property " (name o) ++ js " (" ++ typeName o ++ js ") expects a value".

(** The closure [handleArg] of token [i]; the boolean is [deleteNext]. *)
Definition handleArg (i : nat) (nextToken : option jstr) (st : PState) (deleteNext : bool)
    (nm : jstr) : Result (PState * bool) :=
  let '(opts, perr) := st in
  match getArgOption opts nm with
  | None =>
      Ok (set_perr st (quoted "Unexpected property " nm) (Some i) (errTokenSpan perr), deleteNext)
  | Some k =>
      match nth_error opts k with
      | None => Ok (st, deleteNext)
      | Some o =>
      if negb (optional o) then
        Ok ((update_nth opts k (fun o => set_tokenIndex o i),
             mkParsingError (Some (quoted "Property " (name o)
                                   ++ js " is not optional, must be passed directly"))
                            (Some (Z.of_nat i)) 1%Z), deleteNext)
      else match type o with
      | TBoolean =>
          st' <- apply_value (update_nth opts k (fun o => set_tokenIndex o i), perr) k InTrue ;;
          Ok (st', false)
      | _ =>
          match nextToken with
          | Some t =>
              if negb (jstr_eqb t []) then
                st' <- apply_value (update_nth opts k (fun o => set_token o (Some i) 1 (hasExpanded o)),
                                    perr) k (InToken t) ;;
                Ok (st', deleteNext)
              else Ok (set_perr st (expects_value_msg o) (Some (S i)) (errTokenSpan perr), deleteNext)
          | None =>
              Ok (set_perr st (expects_value_msg o) (Some (S i)) (errTokenSpan perr), deleteNext)
          end
      end
      end
  end.

(** The loop [for (let j = 0; j < currToken.length; j++)] over a cluster
    [-abc]; [None] in the result is the early [return null]. *)
Fixpoint cluster_loop (i : nat) (nextToken : option jstr) (len j : nat) (chars : jstr)
    (st : PState) (deleteNext : bool) : Result (PState * option bool) :=
  match chars with
  | [] => Ok (st, Some deleteNext)
  | c :: chars' =>
      let argOption := getArgOption (fst st) [c] in
      if ascii_eqb c "-"%char then cluster_loop i nextToken len (S j) chars' st deleteNext
      else
        st1 <- (match argOption with
                | Some k => apply_value (update_nth (fst st) k (fun o => set_tokenIndex o i), snd st)
                                        k InTrue
                | None => Ok st
                end) ;;
        r <- (if Nat.eqb j (len - 1) then handleArg i nextToken st1 deleteNext [c]
              else match option_map type (match argOption with
                                          | Some k => nth_error (fst st1) k
                                          | None => None end) with
                   | None => Ok (set_perr st1 (quoted "Unexpected property " [c]) (Some i)
                                          (errTokenSpan (snd st1)), deleteNext)
                   | Some TBoolean => Ok (st1, deleteNext)
                   | Some _ => Ok (set_perr st1 (quoted "Property " [c] ++
                                     js " is not a boolean and must be assigned a value")
                                     (Some i) (errTokenSpan (snd st1)), deleteNext)
                   end) ;;
        let '(st2, dn) := r in
        if has_error st2 then Ok (st2, None)
        else cluster_loop i nextToken len (S j) chars' st2 dn
  end.

(** One iteration of the token loop: [None] is [return null]; otherwise
    the indices pushed onto [deleteIndeces]. *)
Definition named_step (i : nat) (currToken : jstr) (nextToken : option jstr) (st : PState)
    : Result (PState * option (list nat)) :=
  if is_flag_token currToken then
    r <- (if starts_with currToken (js "--") then
            r <- handleArg i nextToken st true (slice_from currToken 2) ;;
            Ok (fst r, Some (snd r))
          else if Nat.eqb (List.length currToken) 2 then
            r <- handleArg i nextToken st true (slice_from currToken 1) ;;
            Ok (fst r, Some (snd r))
          else cluster_loop i nextToken (List.length currToken) 0 currToken st true) ;;
    match r with
    | (st', None) => Ok (st', None)
    | (st', Some deleteNext) =>
        if has_error st' then Ok (st', None)
        else Ok (st', Some (if deleteNext then [i; S i] else [i]))
    end
  else if has_error st then Ok (st, None)
  else Ok (st, Some []).

Fixpoint named_loop (tokens : list jstr) (i : nat) (rest : list jstr) (st : PState)
    (deleteIndeces : list nat) : Result (PState * option (list nat)) :=
  match rest with
  | [] => Ok (st, Some deleteIndeces)
  | t :: rest' =>
      r <- named_step i t (nth_error tokens (S i)) st ;;
      match r with
      | (st', None) => Ok (st', None)
      | (st', Some pushed) => named_loop tokens (S i) rest' st' (deleteIndeces ++ pushed)
      end
  end.

(** [TerminalParser.parseNamedArgs(tokens, argOptions, parsingError)]:
    the mutated options and error, and the returned list ([None] = null). *)
Definition parseNamedArgs (tokens : list jstr) (st : PState)
    : Result (PState * option (list nat)) :=
  named_loop tokens 0 tokens st [].
End NamedArgs.

(* ------------------------------------------------------------------ *)
(** ** TerminalParser.parseArguments *)

(** The [args] of a command: a plain array of spec strings, or an object
    from spec string to description, given by its entries in property
    order. *)
Inductive CommandArgs :=
| ArgsArray (l : list jstr)
| ArgsObject (entries : list (jstr * jstr)).

Record Command := mkCommand {
  cmdName : jstr;
  args : CommandArgs;
  (** the entries of [defaultValues] *)
  defaultValues : list (jstr * jsval);
  rawArgMode : bool
}.

Fixpoint join (sep : jstr) (l : list jstr) : jstr :=
  match l with
  | [] => []
  | [x] => x
  | x :: l' => x ++ sep ++ join sep l'
  end.

(** The entries [Object.entries(args)] enumerates when
    [args.toString() == "[object Object]"], [None] otherwise. *)
Definition object_entries (a : CommandArgs) : option (list (jstr * jstr)) :=
  match a with
  | ArgsObject es => Some es
  | ArgsArray l =>
      if jstr_eqb (join (js ",") l) (js "[object Object]")
      then Some (combine (map (fun i => Z_to_jstr (Z.of_nat i)) (seq 0 (List.length l))) l)
      else None
  end.

Definition argsArray (a : CommandArgs) : list jstr :=
  match object_entries a, a with
  | Some es, _ => map fst es
  | None, ArgsArray l => l
  | None, ArgsObject es => map fst es
  end.

Fixpoint mapM {A B} (f : A -> Result B) (l : list A) : Result (list B) :=
  match l with
  | [] => Ok []
  | x :: l' => y <- f x ;; ys <- mapM f l' ;; Ok (y :: ys)
  end.

(** [String.prototype.replaceAll(pat, rep)] for a non-empty [pat]. *)
Fixpoint replace_all_fuel (fuel : nat) (pat rep s : jstr) : jstr :=
  match fuel with
  | O => s
  | S f =>
      match s with
      | [] => []
      | c :: s' =>
          if starts_with s pat then rep ++ replace_all_fuel f pat rep (skipn (List.length pat) s)
          else c :: replace_all_fuel f pat rep s'
      end
  end.

Definition replace_all (pat rep s : jstr) : jstr := replace_all_fuel (List.length s) pat rep s.

Fixpoint apply_defaults (opts : list ArgOption) (ds : list (jstr * jsval)) : Result (list ArgOption) :=
  match ds with
  | [] => Ok opts
  | (nm, v) :: ds' =>
      match getArgOption opts nm with
      | None => Throw TypeError   (* [undefined.default = value] *)
      | Some k => apply_defaults (update_nth opts k (fun o => set_default o v)) ds'
      end
  end.

Fixpoint apply_descriptions (opts : list ArgOption) (i : nat) (es : list (jstr * jstr))
    : Result (list ArgOption) :=
  match es with
  | [] => Ok opts
  | (_, d) :: es' =>
      match nth_error opts i with
      | None => Throw TypeError
      | Some o =>
          r <- (match type o with
                | TEnum =>
                    match enumOptions o with
                    | None => Throw TypeError   (* [undefined.join] *)
                    | Some eo => Ok (replace_all (js "<enum>") (join (js " | ") eo) d)
                    end
                | _ => Ok d
                end) ;;
          apply_descriptions (update_nth opts i (fun o => set_description o r)) (S i) es'
      end
  end.

Section ParseArguments.
Variable env : JsEnv.

(** The positional pass: [i] is the token index, [k] is [argOptionIndex]. *)
Fixpoint positional_loop (ignore : list nat) (i k : nat) (rest : list jstr) (st : PState)
    : Result PState :=
  match rest with
  | [] => Ok st
  | token :: rest' =>
      if existsb (Nat.eqb i) ignore then positional_loop ignore (S i) k rest' st
      else
        let '(opts, perr) := st in
        match nth_error opts k with
        | None => Ok (opts, mkParsingError (Some (js "Too many arguments")) (Some (Z.of_nat i)) 99999%Z)
        | Some o =>
            let '(o', k') :=
              if expanding o then
                (if hasExpanded o then set_token o (tokenIndex o) (S (tokenSpan o)) true
                 else set_token o (Some i) 0 true, k)
              else (set_tokenIndex o i, S k) in
            st' <- apply_value env (update_nth opts k (fun _ => o'), perr) k (InToken token) ;;
            if has_error st' then Ok st'
            else positional_loop ignore (S i) k' rest' st'
        end
  end.

Definition missing_check (st : PState) : PState :=
  match find (fun a => negb (optional a) && negb (isManuallySetValue a)) (fst st) with
  | Some a => (fst st, mkParsingError
                 (Some (quoted "argument " (name a) ++ js " (" ++ typeName a ++ js ") is missing"))
                 (Some 99999%Z) (errTokenSpan (snd st)))
  | None => st
  end.

(** [TerminalParser.parseArguments(tempTokens, command)]: the returned
    [{argOptions, parsingError}], or the exception it throws. *)
Definition parseArguments (tempTokens : list jstr) (command : Command) : Result PState :=
  opts0 <- mapM parseArgOptions (argsArray (args command)) ;;
  opts1 <- apply_defaults opts0 (defaultValues command) ;;
  opts2 <- (match object_entries (args command) with
            | Some es => apply_descriptions opts1 0 es
            | None => Ok opts1
            end) ;;
  r <- parseNamedArgs env tempTokens (opts2, no_error) ;;
  let '(st, ignoreIndeces) := r in
  if has_error st then Ok st
  else
    let ignore := match ignoreIndeces with Some l => l | None => [] end ++ [0] in
    st' <- positional_loop ignore 0 0 tempTokens st ;;
    if has_error st' then Ok st'
    else Ok (missing_check st').
End ParseArguments.

(* ------------------------------------------------------------------ *)
(** ** Command.processArgs and Command.run *)

(** What the handler is called with: the value object of [processArgs]
    (its [(form, value)] assignments in order), the raw argument string
    of a raw-arg-mode command, or [(rawArgs, tokens)] when [processArgs]
    is off. *)
Inductive HandlerInput :=
| HArgs (valueObject : list (jstr * jsval))
| HRaw (rawArgs : jstr)
| HRawTokens (rawArgs : jstr) (tokens : list jstr).

(** How the (awaited) callback ends, as [run] observes it. *)
Inductive HandlerOutcome :=
| HReturns
| HThrows (e : thrown).

(** The terminal effects [run] performs, in order. *)
Inductive Event :=
| EvExpectFinish                     (** [terminal.expectingFinishCommand = true] *)
| EvPrintUsage (msg : jstr)          (** [TerminalParser._printParserError] *)
| EvCallback (input : HandlerInput)  (** the handler is called *)
| EvPrintError (text nm : jstr)      (** [terminal.printError(error.message, error.name)] *)
| EvConsoleError                     (** [console.error(error)] *)
| EvFinishCommand.                   (** [terminal.finishCommand()] *)

Inductive RunOutcome :=
| RunReturns (b : bool)
| RunRejects (e : thrown).

Definition value_object (opts : list ArgOption) : list (jstr * jsval) :=
  flat_map (fun o => map (fun f => (f, value o)) (forms o)) opts.

Definition processArgs (env : JsEnv) (cmd : Command) (tokens : list jstr) (rawArgs : jstr)
    : list Event * Result HandlerInput :=
  if rawArgMode cmd then ([], Ok (HRaw rawArgs))
  else match parseArguments env tokens cmd with
       | Throw e => ([], Throw e)
       | Ok (opts, perr) =>
           if has_error (opts, perr)
           then ([EvPrintUsage (match message perr with Some m => m | None => [] end)],
                 Throw IntendedError)
           else ([], Ok (HArgs (value_object opts)))
       end.

(** [error.name] and [error.message] of an error object (runtime messages
    are engine-specific and left empty). *)
Definition error_name (e : thrown) : jstr :=
  match e with
  | DeveloperError _ => js "DeveloperError"
  | IntendedError => js "IntendedError"
  | TypeError => js "TypeError"
  | RangeError => js "RangeError"
  | OtherError n _ => n
  | ThrownNullish => []
  end.

Definition error_message (e : thrown) : jstr :=
  match e with
  | DeveloperError m => m
  | OtherError _ m => m
  | _ => []
  end.

Section Run.
Variable env : JsEnv.
Variable cmd : Command.
(** the command's callback *)
Variable callback : HandlerInput -> HandlerOutcome.
(** [terminal.tempActivityCallCount === terminal.tempMaxActivityCallCount] *)
Variable activityLimitReached : bool.

Definition finish (callFinishFunc : bool) : list Event :=
  if callFinishFunc then [EvFinishCommand] else [].

(** The [catch (error)] block; on a nullish [error], [error.message]
    throws a [TypeError] out of the block. *)
Definition catch_block (callFinishFunc : bool) (e : thrown) : list Event * RunOutcome :=
  match e with
  | ThrownNullish => ([], RunRejects TypeError)
  | IntendedError => (finish callFinishFunc, RunReturns activityLimitReached)
  | _ => ([EvPrintError (error_message e) (error_name e); EvConsoleError]
            ++ finish callFinishFunc, RunReturns activityLimitReached)
  end.

(** [Command.run(tokens, rawArgs, {callFinishFunc, processArgs})]: the
    effects it performs and how the returned promise settles. *)
Definition run (tokens : list jstr) (rawArgs : jstr) (callFinishFunc doProcessArgs : bool)
    : list Event * RunOutcome :=
  let ev0 := if callFinishFunc then [EvExpectFinish] else [] in
  let '(ev1, passing) :=
    if doProcessArgs then processArgs env cmd tokens rawArgs
    else ([], Ok (HRawTokens rawArgs tokens)) in
  let '(ev2, out) :=
    match passing with
    | Throw e => catch_block callFinishFunc e
    | Ok input =>
        match callback input with
        | HReturns => ([EvCallback input] ++ finish callFinishFunc, RunReturns true)
        | HThrows e => let '(ev, o) := catch_block callFinishFunc e in (EvCallback input :: ev, o)
        end
    end in
  (ev0 ++ ev1 ++ ev2, out).
End Run.

Definition is_finish (e : Event) : bool :=
  match e with EvFinishCommand => true | _ => false end.


Definition count_finish (evs : list Event) : nat := List.length (filter is_finish evs).

(* ------------------------------------------------------------------ *)
(** ** TerminalParser: variables and assignments *)

Fixpoint take_while (p : ascii -> bool) (s : jstr) : jstr :=
  match s with
  | c :: s' => if p c then c :: take_while p s' else []
  | [] => []
  end.

(** [[a-zA-Z0-9]] *)
Definition is_alnum (c : ascii) : bool := is_letter c || is_digit c.

(** [isVariable]: [/^\$[a-zA-Z][a-zA-Z0-9]*$/] *)
Definition isVariable (token : jstr) : bool :=
  match token with
  | d :: c :: r => ascii_eqb d "$"%char && is_letter c && forallb is_alnum r
  | _ => false
  end.

(** [/^\$(N)\s*=/] with [N] the pattern [[a-zA-Z][a-zA-Z0-9]*]: the
    captured group, [None] when there is no match. The three classes [[a-zA-Z0-9]], [\s] and [=] are
    disjoint, so the greedy match is the only one. *)
Definition match_assignment (command : jstr) : option jstr :=
  match command with
  | d :: c :: r =>
      if ascii_eqb d "$"%char && is_letter c then
        match drop_while is_str_whitespace (drop_while is_alnum r) with
        | e :: _ => if ascii_eqb e "="%char then Some (c :: take_while is_alnum r) else None
        | [] => None
        end
      else None
  | _ => None
  end.

(** [commandIsAssignment] *)
Definition commandIsAssignment (command : jstr) : bool :=
  match match_assignment command with Some _ => true | None => false end.

(** [extractVariableName]: [command.match(...)[1]]; indexing the [null]
    of a failed match throws a [TypeError]. *)
Definition extractVariableName (command : jstr) : Result jstr :=
  match match_assignment command with
  | Some name => Ok name
  | None => Throw TypeError
  end.

(** [extractAssignment]: [null], or the name and [command.split("=", 2)[1]]
    ([None] standing for [undefined]). *)
Definition extractAssignment (command : jstr) : Result (option (jstr * option jstr)) :=
  if negb (commandIsAssignment command) then Ok None
  else
    variableName <- extractVariableName command ;;
    Ok (Some (variableName, nth_opt (firstn 2 (js_split command "="%char)) 1)).

(** [extractCommandAndArgs]: [args[0]] ([None] for [undefined]) and the
    remaining tokens. *)
Definition extractCommandAndArgs (tokens : list jstr) : option jstr * list jstr :=
  (nth_opt tokens 0, tl tokens).

(* ------------------------------------------------------------------ *)
(** ** Terminal.input *)

(** [c !== sep], and the characters the tokenizer neither quotes nor
    splits on. *)
Definition not_char (sep : ascii) (x : ascii) : bool := negb (ascii_eqb x sep).

Definition is_plain (c : ascii) : bool := negb (is_apostrophe c) && negb (is_space c).

(** The members of [Object.prototype]: the [in] test and the property read
    on the plain object [variableCache] find them on every name without an
    own property. *)
Definition object_prototype_members : list jstr :=
  map js ["constructor"; "hasOwnProperty"; "isPrototypeOf"; "propertyIsEnumerable";
          "toLocaleString"; "toString"; "valueOf"; "__defineGetter__"; "__defineSetter__";
          "__lookupGetter__"; "__lookupSetter__"; "__proto__"]%string.

(** What [variableCache[name]] reads: an own string property, or an
    inherited member of [Object.prototype]. *)
Inductive CacheValue :=
| CVString (s : jstr)
| CVInherited (name : jstr).

Fixpoint assoc_get {A} (l : list (jstr * A)) (k : jstr) : option A :=
  match l with
  | [] => None
  | (k', v) :: l' => if jstr_eqb k k' then Some v else assoc_get l' k
  end.

(** The own properties of [variableCache], latest assignment first. *)
Definition cache_get (cache : list (jstr * jstr)) (name : jstr) : option CacheValue :=
  match assoc_get cache name with
  | Some v => Some (CVString v)
  | None => if includes_str object_prototype_members name then Some (CVInherited name) else None
  end.

Inductive OutputChannel := OCUser | OCNone | OCCacheAndUser.

(** The fields of a [Terminal] that [input] reads or writes. *)
Record Terminal := mkTerminal {
  variableCache : list (jstr * jstr);
  outputCacheVarName : option jstr;
  outputChannel : OutputChannel
}.

(** The terminal effects of [input] after its logging and interrupt reset. *)
Inductive InputEffect :=
| IEPrintError (text : jstr)          (** [this.printError(text)] *)
| IEPrintLine (v : CacheValue)        (** [this.printLine(v)] *)
| IEPrompt                            (** [this.standardInputPrompt()] *)
| IERun (commandText : jstr) (tokens : list jstr) (rawArgs : jstr) (callFinishFunc : bool)
    (** [command.run(tokens, rawArgs, {callFinishFunc})] *)
| IECmdNotFound (tokens : list jstr) (rawArgs : jstr) (callFinishFunc : bool).
    (** [cmdnotfound.run(tokens, rawArgs, {callFinishFunc, processArgs: false})] *)

Definition undefined_var_msg (name : jstr) : jstr :=
  js "Variable '" ++ name ++ js "' is not defined" ++ [ascii_of_nat 10].

Definition assign_var (t : Terminal) (name : jstr) : Terminal :=
  mkTerminal ((name, []) :: variableCache t) (Some name) OCCacheAndUser.

Definition set_channel (t : Terminal) (c : OutputChannel) : Terminal :=
  mkTerminal (variableCache t) (outputCacheVarName t) c.

(** [Terminal.input(text, testMode)]; [commandExists] is the terminal's
    command table. *)
Definition input (commandExists : jstr -> bool) (t : Terminal) (text : jstr) (testMode : bool)
    : Result (Terminal * list InputEffect) :=
  if isVariable text then
    varName <- extractVariableName (text ++ js "=") ;;
    match cache_get (variableCache t) varName with
    | None => Ok (t, [IEPrintError (undefined_var_msg varName); IEPrompt])
    | Some v => Ok (t, [IEPrintLine v; IEPrompt])
    end
  else
    assignmentInfo <- extractAssignment text ;;
    match (match assignmentInfo with
           | Some (name, value) => (assign_var t name, value)
           | None => (set_channel t OCUser, Some text)
           end) with
    | (_, None) => Throw TypeError      (** [tokenize(undefined)] *)
    | (t', Some text') =>
        match tokenize text' with
        | [] => Ok (t', [IEPrompt])
        | tokens =>
            match extractCommandAndArgs tokens with
            | (None, _) => Throw TypeError
            | (Some commandText, _) =>
                let rawArgs := slice_from text' (List.length commandText) in
                if commandExists commandText
                then Ok (t', [IERun commandText tokens rawArgs (negb testMode)])
                else Ok (t', [IECmdNotFound [js "cmdnotfound"; commandText; rawArgs]
                                            commandText (negb testMode)])
            end
        end
    end.

(* ------------------------------------------------------------------ *)
(** ** FilePath, DirectoryFile.getFile and FileSystem.getFile *)

(** [FileType] *)
Inductive FileType := FTRaw | FTDirectory | FTPlainText | FTDataURL.

(** The fields of a [TerminalFile] that the path functions read. Files
    are objects that refer to each other; a reference is an index into
    the list of all files (the [FileStore]), and a reference that denotes
    no file of the store reads as [undefined]. *)
Record TerminalFile := mkTerminalFile {
  fid : nat;                (** [id] *)
  fname : jstr;             (** [name] *)
  ftype : FileType;         (** [type] *)
  parent : option nat;      (** [parent], [None] for [null] *)
  children : list nat       (** [content] of a [DirectoryFile] *)
}.

Definition FileStore := list TerminalFile.

Definition file_at (fs : FileStore) (r : nat) : option TerminalFile := nth_error fs r.

Definition is_directory (f : TerminalFile) : bool :=
  match ftype f with FTDirectory => true | _ => false end.

Record FilePath := mkFilePath {
  items : list jstr;
  relativeTo : option nat
}.

(** [/[\\\/]/] *)
Definition is_path_sep (c : ascii) : bool :=
  ascii_eqb c "/"%char || ascii_eqb c (ascii_of_nat 92).

(** [String.prototype.split] with a one-character class as separator. *)
Fixpoint split_class (p : ascii -> bool) (s : jstr) (cur : jstr) : list jstr :=
  match s with
  | [] => [cur]
  | c :: s' => if p c then cur :: split_class p s' [] else split_class p s' (cur ++ [c])
  end.

(** [FilePath.fromString] *)
(** [part => part !== ...], the empty-part filter of [FilePath.fromString]. *)
Definition keep_part (part : jstr) : bool := negb (jstr_eqb part []).

Definition FilePath_fromString (str : jstr) : FilePath :=
  mkFilePath (filter keep_part (split_class is_path_sep str [])) None.

(** The arguments [FilePath.from] distinguishes. *)
Inductive PathArg :=
| PAString (s : jstr)
| PAPath (p : FilePath)
| PAArray (l : list jstr)
| PAOther.

(** [FilePath.from]; [None] is the [Error] object it returns (it does not
    throw it). *)
Definition FilePath_from (obj : PathArg) : option FilePath :=
  match obj with
  | PAString s => Some (FilePath_fromString s)
  | PAPath p => Some p
  | PAArray l => Some (mkFilePath l None)
  | PAOther => None
  end.

Definition FilePath_concat (p q : FilePath) : FilePath := mkFilePath (items p ++ items q) None.

(** [p.slice(start)] *)
Definition FilePath_slice (p : FilePath) (start : nat) : FilePath :=
  mkFilePath (skipn start (items p)) None.

(** [TerminalFile.path] *)
Definition file_path (f : TerminalFile) : FilePath := mkFilePath [fname f] (parent f).

(** [FilePath.fromRoot]. The recursion follows the [parent] links; [fuel]
    bounds it by the number of files plus one, so running out of it means
    the links form a cycle, on which the recursion overflows the stack
    ([RangeError]). *)
Fixpoint FilePath_fromRoot (fs : FileStore) (fuel : nat) (p : FilePath) : Result FilePath :=
  match relativeTo p with
  | None => Ok p
  | Some r =>
      match fuel with
      | 0 => Throw RangeError
      | S n =>
          match file_at fs r with
          | None => Throw TypeError
          | Some f => q <- FilePath_fromRoot fs n (file_path f) ;; Ok (FilePath_concat q p)
          end
      end
  end.

(** The [relativeTo == null] branch of [FilePath.toString]. *)
Definition items_toString (l : list jstr) : jstr :=
  if match nth_opt l 0 with Some x => jstr_eqb x (js "root") | None => false end
  then join (js "/") l ++ js "/"
  else js "root/" ++ join (js "/") l ++ js "/".

(** [FilePath.toString]; the path [fromRoot] returns for a relative path
    is built by [concat], so it has [relativeTo == null]. *)
Definition FilePath_toString (fs : FileStore) (p : FilePath) : Result jstr :=
  match relativeTo p with
  | None => Ok (items_toString (items p))
  | Some _ => q <- FilePath_fromRoot fs (S (List.length fs)) p ;; Ok (items_toString (items q))
  end.

(** What [DirectoryFile.getFile] ends with: the file a reference denotes
    ([undefined] when it denotes none), [undefined], a thrown [TypeError],
    or a loop that runs forever. *)
Inductive Resolved :=
| RFile (r : nat)
| RUndefined
| RTypeError
| RDiverges.

(** [children.find(c => c.name == name)]; [c.name] throws on a reference
    that denotes no file. *)
Fixpoint find_child (fs : FileStore) (cs : list nat) (name : jstr) : Result (option nat) :=
  match cs with
  | [] => Ok None
  | c :: cs' =>
      match file_at fs c with
      | None => Throw TypeError
      | Some f => if jstr_eqb (fname f) name then Ok (Some c) else find_child fs cs' name
      end
  end.

(** [while (currDirectory.parent) currDirectory = currDirectory.parent];
    [fuel] is the number of files plus one, and running out of it means the
    [parent] links form a cycle. *)
Fixpoint to_top (fs : FileStore) (fuel : nat) (curr : nat) : Resolved :=
  match fuel with
  | 0 => RDiverges
  | S n =>
      match file_at fs curr with
      | None => RTypeError
      | Some f => match parent f with None => RFile curr | Some p => to_top fs n p end
      end
  end.

(** The [for (let name of path.items)] loop of [DirectoryFile.getFile],
    from [currDirectory = curr]. *)
Fixpoint getFile_loop (fs : FileStore) (names : list jstr) (curr : nat) : Resolved :=
  match names with
  | [] => RFile curr
  | name :: rest =>
      if jstr_eqb name (js ".") then getFile_loop fs rest curr
      else if jstr_eqb name (js "..") then
        match file_at fs curr with
        | None => RTypeError
        | Some f =>
            match parent f with
            | None => RUndefined
            | Some p => getFile_loop fs rest p
            end
        end
      else if jstr_eqb name (js "~") then
        match to_top fs (S (List.length fs)) curr with
        | RFile top => getFile_loop fs rest top
        | other => other
        end
      else
        match file_at fs curr with
        | None => RTypeError
        | Some f =>
            (** [findChildByName] is a method of [DirectoryFile] only *)
            if is_directory f then
              match find_child fs (children f) name with
              | Throw _ => RTypeError
              | Ok None => RUndefined
              | Ok (Some c) => getFile_loop fs rest c
              end
            else RTypeError
        end
  end.

(** [d.getFile(path)] for the file [d]; [getFile] is a method of
    [DirectoryFile] only, and on the [Error] object [FilePath.from]
    returns, [path.items] is [undefined] and the loop throws. *)
Definition DirectoryFile_getFile (fs : FileStore) (d : nat) (path : PathArg) : Resolved :=
  match file_at fs d with
  | Some f =>
      if is_directory f then
        match FilePath_from path with
        | None => RTypeError
        | Some p => getFile_loop fs (items p) d
        end
      else RTypeError
  | None => RTypeError
  end.

(** The fields of a [FileSystem]. *)
Record FileSystem := mkFileSystem {
  files : FileStore;
  root : nat;
  currDirectory : nat
}.

(** A name that [fromString] keeps as one item and [getFile] looks up
    among the children: not empty, without [/] or [\], and none of [.],
    [..] and [~]. *)
Definition path_name (n : jstr) : bool :=
  negb (jstr_eqb n []) && forallb (fun c => negb (is_path_sep c)) n
  && negb (jstr_eqb n (js ".")) && negb (jstr_eqb n (js "..")) && negb (jstr_eqb n (js "~")).

(** [placed fs rt r k]: the file [r] hangs [k] levels below the
    directory [rt] named [root] that has no parent, each file on the way
    being the first child of its parent directory with its name, and
    having that directory as [parent] (as [addChild] leaves them). *)
Inductive placed (fs : FileStore) (rt : nat) : nat -> nat -> Prop :=
| placed_root f :
    file_at fs rt = Some f -> is_directory f = true -> parent f = None ->
    fname f = js "root" -> placed fs rt rt 0
| placed_child a fa b fb k :
    placed fs rt a k -> file_at fs a = Some fa -> is_directory fa = true ->
    file_at fs b = Some fb -> parent fb = Some a ->
    find_child fs (children fa) (fname fb) = Ok (Some b) ->
    path_name (fname fb) = true -> placed fs rt b (S k).

(** [FileSystem.getFile] *)
Definition FileSystem_getFile (sys : FileSystem) (path : PathArg) : Resolved :=
  match FilePath_from path with
  | None => RTypeError
  | Some p =>
      if match nth_opt (items p) 0 with Some x => jstr_eqb x (js "root") | None => false end
      then DirectoryFile_getFile (files sys) (root sys) (PAPath (FilePath_slice p 1))
      else DirectoryFile_getFile (files sys) (currDirectory sys) (PAPath p)
  end.

Definition set_children (f : TerminalFile) (cs : list nat) : TerminalFile :=
  mkTerminalFile (fid f) (fname f) (ftype f) (parent f) cs.

Definition set_parent (f : TerminalFile) (p : option nat) : TerminalFile :=
  mkTerminalFile (fid f) (fname f) (ftype f) p (children f).

(** [d.addChild(c)]: [this.content.push(child); child.parent = this] *)
Definition addChild (fs : FileStore) (d c : nat) : FileStore :=
  let fs1 := update_nth fs d (fun f => set_children f (children f ++ [c])) in
  update_nth fs1 c (fun f => set_parent f (Some d)).

(** [this.children.filter(f => f.id != child.id)] *)
Fixpoint filter_ids (fs : FileStore) (cs : list nat) (id : nat) : Result (list nat) :=
  match cs with
  | [] => Ok []
  | c :: cs' =>
      match file_at fs c with
      | None => Throw TypeError
      | Some f =>
          rest <- filter_ids fs cs' id ;;
          Ok (if Nat.eqb (fid f) id then rest else c :: rest)
      end
  end.

(** [d.deleteChild(c)] *)
Definition deleteChild (fs : FileStore) (d c : nat) : Result FileStore :=
  match file_at fs c, file_at fs d with
  | Some child, Some dir =>
      cs <- filter_ids fs (children dir) (fid child) ;;
      Ok (update_nth fs d (fun f => set_children f cs))
  | _, _ => Throw TypeError
  end.

(** ** UtilityFunctions.levenshteinDistance *)

(** One row of [track]: [prev] is row [j - 1] from column [i - 1] on,
    [left] is [track[j][i - 1]]. *)
Fixpoint lev_row (s1 : jstr) (c : ascii) (prev : list nat) (left : nat) : list nat :=
  match s1, prev with
  | a :: s1', p0 :: ((p1 :: _) as prev') =>
      let indicator := if ascii_eqb a c then 0 else 1 in
      let v := Nat.min (Nat.min (left + 1) (p1 + 1)) (p0 + indicator) in
      v :: lev_row s1' c prev' v
  | _, _ => []
  end.

Fixpoint lev_rows (s1 s2 : jstr) (prev : list nat) (j : nat) : list nat :=
  match s2 with
  | [] => prev
  | c :: s2' => lev_rows s1 s2' (S j :: lev_row s1 c prev (S j)) (S j)
  end.

Definition levenshteinDistance (str1 str2 : jstr) : nat :=
  nth (List.length str1) (lev_rows str1 str2 (seq 0 (S (List.length str1))) 0) 0.

(** The edit distance by its recurrence on the last characters (the lists
    are reversed: their heads are the last characters). *)
Fixpoint edit_distance (a b : jstr) : nat :=
  match a with
  | [] => List.length b
  | x :: a' =>
      (fix ed_b (b : jstr) : nat :=
         match b with
         | [] => List.length a
         | y :: b' =>
             Nat.min (Nat.min (edit_distance a' b + 1) (ed_b b' + 1))
                     (edit_distance a' b' + (if ascii_eqb x y then 0 else 1))
         end) b
  end.

Definition ed_col (s1 B : jstr) (i : nat) : nat := edit_distance (rev (firstn i s1)) B.

Definition ed_row (s1 B : jstr) : list nat := map (ed_col s1 B) (seq 0 (S (List.length s1))).

(** ** UtilityFunctions.stringPadMiddle *)

(** [while (string.length < length) string = char + string + char]; the
    loop adds at least two characters a turn unless [char] is empty, so
    [length] turns bound it, and [None] is the loop that never ends. *)
Fixpoint pad_both (fuel : nat) (char s : jstr) (len : nat) : option jstr :=
  if List.length s <? len then
    match fuel with
    | O => None
    | S f => pad_both f char (char ++ s ++ char) len
    end
  else Some s.

(** [while (string.length > length) string = string.slice(1)] *)
Fixpoint trim_front (len : nat) (s : jstr) : jstr :=
  match s with
  | [] => []
  | _ :: s' => if len <? List.length s then trim_front len s' else s
  end.

Definition stringPadMiddle (string : jstr) (len : nat) (char : jstr) : option jstr :=
  match pad_both len char string len with
  | Some s => Some (trim_front len s)
  | None => None
  end.

(** ** TerminalData.addToHistory and the history references of sanetizeInput *)

(** [history[history.length - 1]]: [None] is [undefined]. *)
Definition last_item (history : list jstr) : option jstr :=
  nth_error history (List.length history - 1).

(** [history.length > this.maxHistoryLength], with [None] the [NaN] of a
    stored value that is not a number. *)
Definition exceeds (n : nat) (maxHistoryLength : option Z) : bool :=
  match maxHistoryLength with
  | Some m => (m <? Z.of_nat n)%Z
  | None => false
  end.

(** [TerminalData.addToHistory]: the history as the stored array. *)
Definition addToHistory (history : list jstr) (maxHistoryLength : option Z) (command : jstr)
  : list jstr :=
  if match last_item history with Some lastItem => jstr_eqb lastItem command | None => false end
  then history
  else
    let h := history ++ [command] in
    if exceeds (List.length h) maxHistoryLength then tl h else h.







Fixpoint no_adjacent_dup (l : list jstr) : bool :=
  match l with
  | x :: ((y :: _) as t) => negb (jstr_eqb x y) && no_adjacent_dup t
  | _ => true
  end.


(** ** Color *)

(** [parseInt(string, 16)]: leading white space, a sign, an optional
    [0x] / [0X], then the longest run of hexadecimal digits; [NaN] when
    the run is empty. *)
Definition is_hex_digit (c : ascii) : bool := (digit_value c <? 16)%Z.

Definition parseInt16 (string : jstr) : float :=
  let s1 := drop_while is_str_whitespace string in
  let '(neg, s2) :=
    match s1 with
    | c :: t => if ascii_eqb c "-"%char then (true, t)
                else if ascii_eqb c "+"%char then (false, t) else (false, s1)
    | [] => (false, [])
    end in
  let s3 :=
    match s2 with
    | z :: x :: t => if ascii_eqb z "0"%char && (ascii_eqb x "x"%char || ascii_eqb x "X"%char)
                     then t else s2
    | _ => s2
    end in
  match take_while is_hex_digit s3 with
  | [] => nan
  | ds => round_q neg (digits_value 16 ds) 1
  end.

(** [String.prototype.substring(start, end)] *)
Definition substring (s : jstr) (start end_ : nat) : jstr :=
  let f := Nat.min start (List.length s) in
  let t := Nat.min end_ (List.length s) in
  firstn (Nat.max f t - Nat.min f t) (skipn (Nat.min f t) s).

Record Color := mkColor { r : float; g : float; b : float; a : float }.

(** [new Color(r, g, b, a)]: [a ?? 1], [None] being [undefined]. *)
Definition new_Color (r g b : float) (a : option float) : Color :=
  mkColor r g b (match a with Some x => x | None => 1%float end).

(** [Color.fromHex] *)
Definition fromHex (hex : jstr) : Color :=
  let hex := if starts_with hex (js "#") then hex else "#"%char :: hex in
  new_Color (parseInt16 (substring hex 1 3)) (parseInt16 (substring hex 3 5))
            (parseInt16 (substring hex 5 7)) None.

Definition hex_char (d : Z) : ascii := nth (Z.to_nat d) (js "0123456789abcdef") "0"%char.

(** The base-16 digits of [n >= 0], most significant first. *)
Fixpoint hex_digits_fuel (fuel : nat) (n : Z) (acc : jstr) : jstr :=
  match fuel with
  | O => acc
  | S f =>
      let acc' := hex_char (n mod 16) :: acc in
      if (n <? 16)%Z then acc' else hex_digits_fuel f (n / 16) acc'
  end.

Definition Z_to_hex (n : Z) : jstr := hex_digits_fuel (S (Z.to_nat (Z.log2 n))) n [].

(** [Number.prototype.toString(16)] on the numbers whose digits it fixes:
    [None] is a number with a fractional part, whose base-16 expansion
    ECMAScript leaves to the implementation. *)
Definition toString16 (x : float) : option jstr :=
  match Prim2SF x with
  | S754_zero _ => Some (js "0")
  | S754_infinity neg => Some (if neg then js "-Infinity" else js "Infinity")
  | S754_nan => Some (js "NaN")
  | S754_finite neg m e =>
      let mag :=
        if (0 <=? e)%Z then Some (Zpos m * 2 ^ e)%Z
        else if (Zpos m mod 2 ^ (- e) =? 0)%Z then Some (Zpos m / 2 ^ (- e))%Z else None in
      option_map (fun z => if neg then "-"%char :: Z_to_hex z else Z_to_hex z) mag
  end.

(** [String.prototype.padStart(maxLength, fillString)] *)
Definition padStart (s : jstr) (maxLength : nat) (fillString : jstr) : jstr :=
  if Nat.leb maxLength (List.length s) then s
  else match fillString with
       | [] => s
       | _ => firstn (maxLength - List.length s)
                     (List.concat (repeat fillString (maxLength - List.length s))) ++ s
       end.

(** [color.string.hex] *)
Definition color_hex (c : Color) : option jstr :=
  match toString16 (r c), toString16 (g c), toString16 (b c) with
  | Some sr, Some sg, Some sb =>
      Some ("#"%char :: padStart sr 2 (js "0") ++ padStart sg 2 (js "0") ++ padStart sb 2 (js "0"))
  | _, _, _ => None
  end.

(** ** TerminalData: settings kept in [localStorage] *)

(** A string literal with ['] standing for the double quote. *)
Definition jsq (s : string) : jstr := map (fun c => if ascii_eqb c "'"%char then dquote else c) (js s).

(** [TerminalData.defaultValues] *)
Definition TerminalData_defaultValues : list (jstr * jstr) :=
  [(js "background", js "#030306");
   (js "foreground", js "#ffffff");
   (js "font", jsq "'Cascadia Code', monospace");
   (js "accentColor1", js "#ffff00");
   (js "accentColor2", js "#8bc34a");
   (js "history", js "[]");
   (js "storageSize", js "1000000");
   (js "startupCommands", jsq "['helloworld']");
   (js "mobile", js "2");
   (js "easterEggs", js "[]");
   (js "maxHistoryLength", js "100");
   (js "sidepanel", js "true");
   (js "path", js "[]");
   (js "aliases", jsq "{'tree': 'ls -r','github': 'href -f root/github.url','hugeturtlo': 'turtlo --size 2','hugehugeturtlo': 'turtlo --size 3'}")].

Definition localStoragePrepend : jstr := js "terminal-".

(** [localStorage] and the inline style of the document element, as
    string maps; [setItem] / [setProperty] replace the entry of the key. *)
Record TerminalData := mkTerminalData {
  localStorage : list (jstr * jstr);
  cssProperties : list (jstr * jstr)
}.

Definition setItem (store : list (jstr * jstr)) (key value : jstr) : list (jstr * jstr) :=
  (key, value) :: filter (fun kv => negb (jstr_eqb (fst kv) key)) store.

(** [TerminalData.get(key, defaultValue)]; [None] is [undefined]. *)
Definition data_get (d : TerminalData) (key : jstr) (defaultValue : option jstr) : option jstr :=
  let defaultValue :=
    match defaultValue with
    | Some ((_ :: _) as v) => Some v
    | _ => assoc_get TerminalData_defaultValues key
    end in
  match assoc_get (localStorage d) (localStoragePrepend ++ key) with
  | Some v => Some v
  | None => defaultValue
  end.

(** [TerminalData.set(key, value)] *)
Definition data_set (d : TerminalData) (key value : jstr) : TerminalData :=
  mkTerminalData (setItem (localStorage d) (localStoragePrepend ++ key) value) (cssProperties d).

(** [TerminalData.setCSSProperty(key, value)] *)
Definition setCSSProperty (d : TerminalData) (key value : jstr) : TerminalData :=
  mkTerminalData (localStorage d) (setItem (cssProperties d) key value).

(** The getters [background], [foreground], [accentColor1],
    [accentColor2]: [Color.fromHex(this.get(key))]; an [undefined] value
    has no [startsWith]. *)
Definition get_color_setting (d : TerminalData) (key : jstr) : Result Color :=
  match data_get d key None with
  | Some s => Ok (fromHex s)
  | None => Throw TypeError
  end.

(** Their setters: [this.set(key, color.string.hex)], then
    [this.setCSSProperty(cssKey, color.string.hex)]; [None] when
    [color_hex] is [None]. *)
Definition set_color_setting (d : TerminalData) (key cssKey : jstr) (c : Color)
  : option TerminalData :=
  match color_hex c with
  | Some h => Some (setCSSProperty (data_set d key h) cssKey h)
  | None => None
  end.

Definition get_background (d : TerminalData) : Result Color := get_color_setting d (js "background").
Definition set_background (d : TerminalData) (c : Color) : option TerminalData :=
  set_color_setting d (js "background") (js "--background") c.
Definition get_foreground (d : TerminalData) : Result Color := get_color_setting d (js "foreground").
Definition set_foreground (d : TerminalData) (c : Color) : option TerminalData :=
  set_color_setting d (js "foreground") (js "--foreground") c.
Definition get_accentColor1 (d : TerminalData) : Result Color := get_color_setting d (js "accentColor1").
Definition set_accentColor1 (d : TerminalData) (c : Color) : option TerminalData :=
  set_color_setting d (js "accentColor1") (js "--accent-color-1") c.
Definition get_accentColor2 (d : TerminalData) : Result Color := get_color_setting d (js "accentColor2").
Definition set_accentColor2 (d : TerminalData) (c : Color) : option TerminalData :=
  set_color_setting d (js "accentColor2") (js "--accent-color-2") c.

(** One component of [string.hex]. *)
Definition byte_pad (x : float) : option jstr := option_map (fun s => padStart s 2 (js "0")) (toString16 x).

(* ------------------------------------------------------------------ *)
(** ** Concrete inputs *)

(** A runtime used to instantiate the statements below on concrete
    inputs. *)
Definition sample_env : JsEnv :=
  mkJsEnv PrimFloat.sqrt (fun x => x) (fun x => x) (fun x => x) (fun x => x) (fun x => x)
    (fun x => x) (fun x => x) (fun x => x) (fun x => x) (fun x => x) (fun x => x) (fun x => x)
    (fun x _ => x) (fun _ => js "0") (fun _ => false) (fun _ => false).

(** The schema [["a:n:1~100", "?b:b"]] of the spec's examples. *)
Definition cmd_ab : Command :=
  mkCommand (js "cmd") (ArgsArray [js "a:n:1~100"; js "?b:b"]) [] false.

Definition lookup_option (st : PState) (nm : jstr) : option ArgOption :=
  match getArgOption (fst st) nm with
  | Some k => nth_error (fst st) k
  | None => None
  end.

(** The value the pass leaves in the option named [nm]. *)
Definition value_of (st : PState) (nm : jstr) : option jsval :=
  option_map value (lookup_option st nm).

(** [parsingError.message] after the pass. *)
Definition perr_message (st : PState) : option jstr := message (snd st).

(** [quoted "argument " a ++ " (number) is missing"]: the message of the
    final missing-argument check for the number option [a]. *)
Definition missing_number_msg (a : string) : jstr :=
  quoted "argument " (js a) ++ js " (number) is missing".

(** The schema [["a:b", "?b:b"]]: a required boolean [a]. *)
Definition cmd_req_ab : Command :=
  mkCommand (js "cmd") (ArgsArray [js "a:b"; js "?b:b"]) [] false.

(** The schema [["?a:n", "?b:b"]]: an optional number [a]. *)
Definition cmd_opt_num_ab : Command :=
  mkCommand (js "cmd") (ArgsArray [js "?a:n"; js "?b:b"]) [] false.

(** The schema [["a:n"]]. *)
Definition cmd_a : Command :=
  mkCommand (js "cmd") (ArgsArray [js "a:n"]) [] false.

(** The option objects [parseArgOptions] compiles from ["a:n:1~100"]
    and ["?b:b"]. *)
Definition option_a : ArgOption :=
  mkArgOption (js "a") TNumber (js "number") None false (Some 1%float) (Some 100%float)
    false false JUndefined [js "a"] false [] None None 0 JUndefined false false.

Definition option_b : ArgOption :=
  mkArgOption (js "b") TBoolean (js "boolean") None true None None
    false false JUndefined [js "b"] false [] None None 0 JUndefined false false.

(** The spec string after its [?] and [*] prefixes are stripped, and the
    type code [parseArgOptions] reads from it ([parts[1]]). *)
Definition spec_body (argString : jstr) : jstr :=
  let n1 := if starts_with argString (js "?") then slice_from argString 1 else argString in
  if starts_with n1 (js "*") then slice_from n1 1 else n1.

Definition spec_type_code (argString : jstr) : jstr :=
  nth_str (js_split (spec_body argString) ":"%char) 1.

Definition known_type_codes : list jstr :=
  [js "n"; js "i"; js "bn"; js "b"; js "s"; js "t"; js "f"; js "c"; js "m"; js "sm"; js "e"].

(** The change of parenthesis depth one character makes, and the depth
    at the end of a string, as the operator scan counts it. *)
Definition char_delta (c : ascii) : Z :=
  if ascii_eqb c "("%char then 1%Z else if ascii_eqb c ")"%char then (-1)%Z else 0%Z.

Fixpoint paren_depth (s : jstr) : Z :=
  match s with
  | [] => 0%Z
  | c :: s' => (char_delta c + paren_depth s')%Z
  end.

(** A result of [_parseNumber] that is a number, or the sentinel with a
    message [At property "<name>": ...]. *)
Definition sentinel_result (name : jstr) (r : NumResult) : Prop :=
  (exists v, r = NumOk v) \/ (exists text, r = NumErr (prop_msg name text)).

(** A command table holding [ls], and a terminal with an empty cache. *)
Definition ls_exists (s : jstr) : bool := jstr_eqb s (js "ls").

Definition term0 : Terminal := mkTerminal [] None OCUser.

(** A file tree: [root] holds the directory [docs] and the text file
    [a.txt]; [docs] holds [b.txt]. *)
Definition sample_files : FileStore :=
  [mkTerminalFile 0 (js "root") FTDirectory None [1; 2];
   mkTerminalFile 1 (js "docs") FTDirectory (Some 0) [3];
   mkTerminalFile 2 (js "a.txt") FTPlainText (Some 0) [];
   mkTerminalFile 3 (js "b.txt") FTPlainText (Some 1) []].

(** [b.txt], and a new text file [c.txt] not yet in any directory. *)
Definition sample_file_b : TerminalFile := mkTerminalFile 3 (js "b.txt") FTPlainText (Some 1) [].

Definition sample_files_c : FileStore :=
  sample_files ++ [mkTerminalFile 4 (js "c.txt") FTPlainText None []].

(* ================================================================== *)
(** * Properties *)

Lemma jstr_eqb_eq (a b : jstr) : jstr_eqb a b = true <-> a = b.
Proof.
  revert b; induction a as [|x a IH]; intros [|y b]; simpl;
    try (split; congruence).
  rewrite andb_true_iff, IH. unfold ascii_eqb.
  rewrite Ascii.eqb_eq. split; [intros [-> ->]; reflexivity|intros H; inversion H; auto].
Qed.

Lemma jstr_eqb_nil (a : jstr) : jstr_eqb a [] = match a with [] => true | _ => false end.
Proof. destruct a; reflexivity. Qed.

Lemma starts_with_nil (s : jstr) : starts_with s [] = true.
Proof. destruct s; reflexivity. Qed.

Lemma cmd_ab_options : mapM parseArgOptions (argsArray (args cmd_ab)) = Ok [option_a; option_b].
Proof. vm_compute. reflexivity. Qed.

(** ** The operator scan *)

Lemma scan_level (c : ascii) (lvl : Z) :
  (if ascii_eqb c ")"%char
   then ((if ascii_eqb c "("%char then (lvl + 1)%Z else lvl) - 1)%Z
   else if ascii_eqb c "("%char then (lvl + 1)%Z else lvl) = (lvl + char_delta c)%Z.
Proof.
  unfold char_delta.
  destruct (ascii_eqb c "("%char) eqn:E1; destruct (ascii_eqb c ")"%char) eqn:E2; try lia.
  unfold ascii_eqb in *. apply Ascii.eqb_eq in E1, E2. subst. discriminate.
Qed.

Lemma depth_firstn_cons (c : ascii) (s : jstr) (j : nat) :
  paren_depth (firstn (S j) (c :: s)) = (char_delta c + paren_depth (firstn j s))%Z.
Proof. reflexivity. Qed.

(** What [scan_op] returns: the final depth, and either the index it was
    given (no occurrence of [op] at depth 0) or the index of the last
    occurrence of [op] at depth 0, counted from [i]. *)
Lemma scan_op_spec op s : forall i lvl found l res,
  scan_op op s i lvl found = Some (l, res) ->
  l = (lvl + paren_depth s)%Z /\
  ((res = found /\
    forall j, nth_error s j = Some op -> (lvl + paren_depth (firstn (S j) s) <> 0)%Z) \/
   exists j, res = Some (i + j) /\ nth_error s j = Some op /\
     (lvl + paren_depth (firstn (S j) s) = 0)%Z /\
     forall j', j < j' -> nth_error s j' = Some op ->
       (lvl + paren_depth (firstn (S j') s) <> 0)%Z).
Proof.
  induction s as [|c s IH]; intros i lvl found l res H.
  - simpl in H. inversion H; subst. simpl. split; [lia|].
    left. split; [reflexivity|]. intros [|j] Hj; discriminate.
  - cbn [scan_op] in H. rewrite scan_level in H.
    destruct (lvl + char_delta c <? 0)%Z; [discriminate|].
    apply IH in H. destruct H as [Hl Hres]. cbn [paren_depth]. split; [lia|].
    destruct Hres as [[Hres Hno] | (j & Hres & Hj & Hd & Hlast)].
    + destruct (ascii_eqb c op && (lvl + char_delta c =? 0)%Z) eqn:Ec.
      * apply andb_true_iff in Ec. destruct Ec as [Eop Ed].
        unfold ascii_eqb in Eop. apply Ascii.eqb_eq in Eop. apply Z.eqb_eq in Ed. subst c.
        right. exists 0. rewrite Nat.add_0_r. split; [exact Hres|]. split; [reflexivity|].
        split; [rewrite depth_firstn_cons; simpl; lia|].
        intros [|j'] Hj' Hop; [lia|]. rewrite depth_firstn_cons.
        specialize (Hno j' Hop). lia.
      * left. split; [exact Hres|]. intros [|j] Hop.
        -- simpl in Hop. inversion Hop; subst c. rewrite depth_firstn_cons. cbn [firstn paren_depth].
           unfold ascii_eqb in Ec. rewrite Ascii.eqb_refl in Ec. simpl in Ec.
           apply Z.eqb_neq in Ec. lia.
        -- rewrite depth_firstn_cons. specialize (Hno j Hop). lia.
    + right. exists (S j). split; [rewrite Hres; f_equal; lia|].
      split; [exact Hj|]. split; [rewrite depth_firstn_cons; lia|].
      intros [|j'] Hj' Hop; [lia|]. rewrite depth_firstn_cons.
      assert (j < j') by lia. specialize (Hlast j' H Hop). lia.
Qed.

Lemma scan_op_index_lt op s l idx :
  scan_op op s 0 0 None = Some (l, Some idx) -> idx < List.length s.
Proof.
  intros H. destruct (scan_op_spec op s 0 0 None l (Some idx) H)
    as [_ [[Hr _] | (j & Hr & Hj & _)]]; [discriminate|].
  simpl in Hr. inversion Hr; subst. apply nth_error_Some. congruence.
Qed.

(** ** The recursion of [_parseNumber] *)

Lemma starts_with_cons_nonempty (s p : jstr) (c : ascii) :
  starts_with s (c :: p) = true -> 0 < List.length s.
Proof. destruct s; simpl; [discriminate|lia]. Qed.

Lemma slice_length_lt (s : jstr) (b : nat) (e : Z) :
  1 <= b -> 0 < List.length s -> List.length (slice s b e) < List.length s.
Proof.
  intros Hb Hs. unfold slice.
  rewrite length_firstn, length_skipn. lia.
Qed.

Section Recursion.
Variable env : JsEnv.
Variable name : jstr.
Variable rec : jstr -> NumResult.
Variable s : jstr.
(** the recursive call is well behaved on every shorter string *)
Hypothesis IH : forall s', List.length s' < List.length s -> sentinel_result name (rec s').

Lemma try_functions_sentinel fs :
  match try_functions name rec s fs with
  | Some r => sentinel_result name r
  | None => True
  end.
Proof.
  induction fs as [|[fname func] fs IHfs]; [exact I|]. cbn [try_functions].
  destruct (starts_with s (fname ++ js "(")) eqn:Hst; [|exact IHfs].
  destruct (closes_early _ 0) ; [exact IHfs|].
  assert (Hlen : 0 < List.length s).
  { destruct fname as [|c fname]; eapply starts_with_cons_nonempty; exact Hst. }
  destruct (IH (slice s (List.length fname + 1) (-1)) ltac:(apply slice_length_lt; lia))
    as [[v Hv] | [t Ht]]; rewrite ?Hv, ?Ht.
  - destruct (first_constraint (constraints func) v) as [text|].
    + right. exists text. reflexivity.
    + left. eexists. reflexivity.
  - right. exists t. reflexivity.
Qed.

Lemma try_operators_sentinel ops : sentinel_result name (try_operators name rec s ops).
Proof.
  induction ops as [|[op opf] ops IHops]; cbn [try_operators].
  - right. eexists. reflexivity.
  - destruct (scan_op op s 0 0 None) as [[lvl found]|] eqn:Hscan;
      [|right; eexists; reflexivity].
    destruct (negb (lvl =? 0)%Z) eqn:Hl; [right; eexists; reflexivity|].
    destruct found as [idx|]; [|exact IHops].
    apply negb_false_iff, Z.eqb_eq in Hl. subst lvl.
    pose proof (scan_op_index_lt op s 0 idx Hscan) as Hidx.
    destruct (IH (firstn idx s) ltac:(rewrite length_firstn; lia))
      as [[a Ha] | [t Ht]]; rewrite ?Ha, ?Ht.
    + destruct (IH (slice_from s (S idx)) ltac:(unfold slice_from; rewrite length_skipn; lia))
        as [[b Hb] | [t Ht]]; rewrite ?Hb, ?Ht.
      * destruct (PrimFloat.eqb b 0 && ascii_eqb op "/"%char);
          [right; eexists; reflexivity | left; eexists; reflexivity].
      * right. exists t. reflexivity.
    + right. exists t. reflexivity.
Qed.

Lemma parse_number_body_sentinel : sentinel_result name (parse_number_body env name rec s).
Proof.
  unfold parse_number_body.
  repeat match goal with
         | |- context [if jstr_eqb s ?c then _ else _] => destruct (jstr_eqb s c)
         end;
    try (left; eexists; reflexivity); try (right; eexists; reflexivity).
  destruct (starts_with s (js "-")) eqn:Hneg.
  - assert (Hlen : 0 < List.length s) by (eapply starts_with_cons_nonempty; exact Hneg).
    destruct (IH (slice_from s 1) ltac:(unfold slice_from; rewrite length_skipn; lia))
      as [[v Hv] | [t Ht]]; rewrite ?Hv, ?Ht.
    + left. eexists. reflexivity.
    + right. exists t. reflexivity.
  - pose proof (try_functions_sentinel (allowedFunctions env)) as Hf.
    destruct (try_functions name rec s (allowedFunctions env)); [exact Hf|].
    repeat match goal with
           | |- context [if ?b then NumOk _ else _] => destruct b; [left; eexists; reflexivity|]
           end.
    apply try_operators_sentinel.
Qed.
End Recursion.

Lemma parse_number_sentinel env fuel name s :
  List.length s < fuel -> sentinel_result name (parse_number env fuel name s).
Proof.
  revert s; induction fuel as [|f IHf]; intros s Hs; [lia|].
  cbn [parse_number]. apply parse_number_body_sentinel.
  intros s' Hs'. apply IHf. lia.
Qed.

(** ** Compiling spec strings *)

Ltac destruct_lets :=
  repeat match goal with
         | |- context [match ?x with (_, _) => _ end] =>
             lazymatch x with (_, _) => fail | _ => destruct x end
         end.

(** The only exception [parseArgOptions] throws is a [DeveloperError]. *)
Lemma parseArgOptions_only_developer s e :
  parseArgOptions s = Throw e -> exists m, e = DeveloperError m.
Proof.
  unfold parseArgOptions. destruct_lets.
  destruct (includes_char _ ":"%char).
  - destruct (type_of_code _) as [[[[ty tn] isInt] st]|].
    + destruct_lets. cbn [bind]. destruct_lets. discriminate.
    + cbn [bind]. intros H; inversion H; eauto.
  - cbn [bind]. destruct_lets. discriminate.
Qed.

Lemma type_of_code_unknown code : ~ In code known_type_codes -> type_of_code code = None.
Proof.
  intros H. unfold type_of_code.
  repeat match goal with
         | |- context [jstr_eqb code ?c] =>
             let E := fresh "E" in
             destruct (jstr_eqb code c) eqn:E;
             [apply jstr_eqb_eq in E; subst; exfalso; apply H; unfold known_type_codes;
              repeat (first [left; reflexivity | right])|]
         end.
  reflexivity.
Qed.

(** [argsArray.map(this.parseArgOptions)] throws as soon as one spec
    string does. *)
Lemma mapM_parseArgOptions_throws l s :
  In s l -> (exists m, parseArgOptions s = Throw (DeveloperError m)) ->
  exists m, mapM parseArgOptions l = Throw (DeveloperError m).
Proof.
  induction l as [|a l IH]; intros Hin Hs; [destruct Hin|].
  simpl. destruct (parseArgOptions a) as [o|e] eqn:Ea.
  - destruct Hin as [->|Hin].
    + destruct Hs as [m Hm]. congruence.
    + destruct (IH Hin Hs) as [m Hm]. rewrite Hm. exists m. reflexivity.
  - destruct (parseArgOptions_only_developer a e Ea) as [m ->]. exists m. reflexivity.
Qed.

(** ** Updating the option objects *)

Lemma nth_error_update_nth_same {A} (l : list A) k f x :
  nth_error l k = Some x -> nth_error (update_nth l k f) k = Some (f x).
Proof.
  revert k; induction l as [|y l IH]; intros [|k] H; simpl in *; try discriminate.
  - inversion H; reflexivity.
  - auto.
Qed.

(** The named pass reads the token list only through [nextToken], the
    entry after the current index. *)
Lemma named_loop_tokens env tokens tokens' i rest st d :
  (forall j, i < j -> nth_error tokens j = nth_error tokens' j) ->
  named_loop env tokens i rest st d = named_loop env tokens' i rest st d.
Proof.
  revert i st d; induction rest as [|t rest IH]; intros i st d H; [reflexivity|].
  cbn [named_loop]. rewrite (H (S i)) by lia.
  destruct (named_step env i t (nth_error tokens' (S i)) st) as [[st' [pushed|]]|e]; auto.
  apply IH. intros j Hj. apply H. lia.
Qed.

(** The positional pass skips every index of its ignore list. *)
Lemma positional_loop_ignored env ignore i k t rest st :
  existsb (Nat.eqb i) ignore = true ->
  positional_loop env ignore i k (t :: rest) st = positional_loop env ignore (S i) k rest st.
Proof. intros H. simpl. rewrite H. reflexivity. Qed.

Lemma has_error_snd (st st' : PState) : snd st = snd st' -> has_error st = has_error st'.
Proof. unfold has_error. intros ->. reflexivity. Qed.

(** A two-character flag [-c] has a letter [c], never a second dash. *)
Lemma flag_pair_letter (c : ascii) :
  is_flag_token ["-"%char; c] = true -> ascii_eqb "-"%char c = false.
Proof.
  destruct (ascii_eqb "-"%char c) eqn:E; [|reflexivity].
  unfold ascii_eqb in E. apply Ascii.eqb_eq in E. subst c. vm_compute. discriminate.
Qed.

(** [handleArg] on an optional boolean option: it sets the option to
    [true] (through [_parseArgumentValue(argOption, true)]), leaves
    [parsingError] alone and returns [deleteNext = false]. *)
Lemma handleArg_optional_boolean env i next st dn nm k o :
  getArgOption (fst st) nm = Some k -> nth_error (fst st) k = Some o ->
  optional o = true -> type o = TBoolean ->
  exists o', handleArg env i next st dn nm =
      Ok ((update_nth (update_nth (fst st) k (fun o => set_tokenIndex o i)) k (fun _ => o'),
           snd st), false)
   /\ isManuallySetValue o' = true /\ tokenIndex o' = Some i
   /\ (expanding o = false -> value o' = JBool true).
Proof.
  destruct st as [opts perr]; simpl. intros Hg Hn Ho Ht.
  unfold handleArg. rewrite Hg, Hn, Ho. simpl negb. cbv iota. rewrite Ht.
  unfold apply_value. rewrite (nth_error_update_nth_same _ _ _ _ Hn).
  unfold _parseArgumentValue. cbn [type set_tokenIndex set_token]. rewrite Ht.
  unfold addVal. cbn [expanding set_tokenIndex set_token].
  eexists; split; [reflexivity|]. simpl. split; [reflexivity|]. split; [reflexivity|].
  intros He. rewrite He. reflexivity.
Qed.

(** ** The tokenizer *)

Module Tokenizer.

Lemma run_app (a b : jstr) (st : TokState) :
  tokenize_run (a ++ b) st = tokenize_run b (tokenize_run a st).
Proof. unfold tokenize_run. apply fold_left_app. Qed.

(** Inside an open quote every character other than the quote is
    appended to [tempToken]. *)
Lemma run_in_quote (rest : jstr) (q : ascii) (toks : list jstr) (temp : jstr) :
  ~ In q rest ->
  tokenize_run rest (mkTokState toks temp (Some q)) = mkTokState toks (temp ++ rest) (Some q).
Proof.
  revert temp; induction rest as [|c rest IH]; intros temp Hnin; simpl.
  - rewrite app_nil_r. reflexivity.
  - unfold tokenize_run in *; simpl.
    unfold tokenize_step at 2; simpl.
    destruct (ascii_eqb c q) eqn:E.
    + unfold ascii_eqb in E. apply Ascii.eqb_eq in E. subst. exfalso; apply Hnin; left; reflexivity.
    + rewrite IH by (intro; apply Hnin; right; assumption).
      rewrite <- app_assoc. reflexivity.
Qed.

End Tokenizer.

(** Claim C5 (as amended): [tokenize] is a total function of its input;
    writing Q for the double-quote character, [tokenize(a Qb cQ d)] is
    [[a; b c; d]], [tokenize()] is [[]] and [tokenize(a Qb)] is [[a; b]].
    When the input ends inside a quote that is never closed it does not
    fail: its tokens are those of the text before the quote, followed by
    one final token made of the characters pending before the quote and
    all characters after it, and by no final token when those are empty. *)
Theorem tokenize_unterminated_quote :
  tokenize (js "a " ++ [dquote] ++ js "b c" ++ [dquote] ++ js " d") = [js "a"; js "b c"; js "d"] /\
  tokenize [] = [] /\
  tokenize (js "a " ++ [dquote] ++ js "b") = [js "a"; js "b"] /\
  forall (pre : jstr) (q : ascii) (rest : jstr),
    activeApostrophe (tokenize_run pre (mkTokState [] [] None)) = None ->
    is_apostrophe q = true ->
    ~ In q rest ->
    tokenize (pre ++ q :: rest) =
      tokens (tokenize_run pre (mkTokState [] [] None)) ++
      match tempToken (tokenize_run pre (mkTokState [] [] None)) ++ rest with
      | [] => []
      | t => [t]
      end.
Proof.
  split; [reflexivity|]. split; [reflexivity|]. split; [reflexivity|].
  intros pre q rest Hact Hq Hnin.
  unfold tokenize. rewrite Tokenizer.run_app.
  destruct (tokenize_run pre (mkTokState [] [] None)) as [toks temp act] eqn:Est.
  simpl in Hact; subst act. simpl.
  change (tokenize_run (q :: rest) (mkTokState toks temp None))
    with (tokenize_run rest (tokenize_step (mkTokState toks temp None) q)).
  replace (tokenize_step (mkTokState toks temp None) q) with (mkTokState toks temp (Some q))
    by (unfold tokenize_step; simpl; rewrite Hq; reflexivity).
  rewrite Tokenizer.run_in_quote by assumption. simpl.
  destruct (temp ++ rest); simpl; [rewrite app_nil_r|]; reflexivity.
Qed.

Lemma tokenize_unterminated_quote_witness :
  tokenize (js "a " ++ dquote :: js "b") = [js "a"; js "b"] /\
  tokenize (js "a " ++ dquote :: js "b") =
    tokens (tokenize_run (js "a ") (mkTokState [] [] None)) ++
    match tempToken (tokenize_run (js "a ") (mkTokState [] [] None)) ++ js "b" with
    | [] => [] | t => [t] end.
Proof.
  split; [reflexivity|].
  destruct tokenize_unterminated_quote as [_ [_ [_ H]]].
  apply (H (js "a ") dquote (js "b")).
  - reflexivity.
  - reflexivity.
  - simpl. intros [Hc|[]]. discriminate.
Defined.

(** Claim C5, counterexample: a quote opened at the very end of the input
    yields no final token at all. *)
Lemma tokenize_open_quote_at_end : tokenize (js "a " ++ [dquote]) = [js "a"].
Proof. reflexivity. Qed.

(** ** Evaluations of [parseArguments] on concrete token lists *)

(** Evaluates the left side of [exists st, l = Ok st /\ P st] and
    instantiates [st] with the state computed. *)
Ltac ok_exists :=
  match goal with
  | |- exists st, ?l = Ok st /\ _ =>
      let v := eval vm_compute in l in
      match v with Ok ?s => exists s; split; [vm_compute; reflexivity|] end
  end.

(** Claim C1 (as amended): with the schema [["a:n:1~100", "?b:b"]] and the
    full token list of the line, [["cmd", "50"]] resolves with no parsing
    error, [a = 50] and [b] left at its default [undefined], not manually
    set; [["cmd", "150"]] fails with the range error of [a], located at
    token 1.  Without the command token, [["50"]] and [["150"]] both end in
    the missing-argument error of [a]. *)
Theorem parseArguments_cmd_ab_round_trip (env : JsEnv) :
  (exists st, parseArguments env [js "cmd"; js "50"] cmd_ab = Ok st /\
     perr_message st = None /\
     value_of st (js "a") = Some (JNum 50) /\
     value_of st (js "b") = Some JUndefined /\
     option_map isManuallySetValue (lookup_option st (js "b")) = Some false) /\
  (exists st, parseArguments env [js "cmd"; js "150"] cmd_ab = Ok st /\
     perr_message st = Some (prop_msg (js "a") "Number must be at most "
                             ++ number_to_string env 100) /\
     errTokenIndex (snd st) = Some 1%Z /\
     value_of st (js "a") = Some JUndefined) /\
  (exists st, parseArguments env [js "50"] cmd_ab = Ok st /\
     perr_message st = Some (missing_number_msg "a")) /\
  (exists st, parseArguments env [js "150"] cmd_ab = Ok st /\
     perr_message st = Some (missing_number_msg "a")).
Proof.
  repeat split; ok_exists; vm_compute; repeat split; reflexivity.
Qed.

(** Claim C1, counterexample: resolving the tokens [["50"]] with the
    schema [["a:n:1~100", "?b:b"]] does not succeed: the only token is
    read as the command name, [a] stays unset and the missing-argument
    error is reported. *)
Lemma parseArguments_50_missing :
  exists st, parseArguments sample_env [js "50"] cmd_ab = Ok st /\
    perr_message st = Some (missing_number_msg "a") /\
    value_of st (js "a") = Some JUndefined.
Proof. ok_exists; vm_compute; repeat split; reflexivity. Qed.

(** In the named-argument pass, a direct flag [--name] or [-x] that
    resolves to an optional boolean option sets it to [true] and pushes
    only its own index onto [deleteIndeces], never the index of the next
    token, whatever that token is.  With the schema
    [["a:n:1~100", "?b:b"]] the tokens [["-b", "50"]] make the named pass
    return [[0]] (["50"] is kept) and the whole parse set [b = true] and
    [a = 50] with no parsing error; the same holds after a command
    token. *)
Lemma direct_boolean_flag_keeps_next_token :
  (forall env i tok next st nm k o,
    (tok = "-"%char :: "-"%char :: nm \/ exists c, tok = ["-"%char; c] /\ nm = [c]) ->
    is_flag_token tok = true -> has_error st = false ->
    getArgOption (fst st) nm = Some k -> nth_error (fst st) k = Some o ->
    optional o = true -> type o = TBoolean ->
    exists st' o', named_step env i tok next st = Ok (st', Some [i]) /\
      nth_error (fst st') k = Some o' /\ isManuallySetValue o' = true /\
      (expanding o = false -> value o' = JBool true)) /\
  (forall env,
    match parseNamedArgs env [js "-b"; js "50"] ([option_a; option_b], no_error) with
    | Ok (_, deleteIndeces) => deleteIndeces = Some [0]
    | Throw _ => False
    end /\
    (exists st, parseArguments env [js "-b"; js "50"] cmd_ab = Ok st /\
       perr_message st = None /\
       value_of st (js "b") = Some (JBool true) /\
       value_of st (js "a") = Some (JNum 50)) /\
    (exists st, parseArguments env [js "cmd"; js "-b"; js "50"] cmd_ab = Ok st /\
       perr_message st = None /\
       value_of st (js "b") = Some (JBool true) /\
       value_of st (js "a") = Some (JNum 50))).
Proof.
  split.
  - intros env i tok next st nm k o Htok Hflag Herr Hg Hn Ho Ht.
    destruct (handleArg_optional_boolean env i next st true nm k o Hg Hn Ho Ht)
      as (o' & Hh & Hm & _ & Hv).
    assert (Hn' : nth_error (update_nth (update_nth (fst st) k (fun o => set_tokenIndex o i)) k
                                        (fun _ => o')) k = Some o').
    { apply (nth_error_update_nth_same _ _ (fun _ => o') (set_tokenIndex o i)).
      exact (nth_error_update_nth_same _ _ (fun o => set_tokenIndex o i) o Hn). }
    unfold named_step. rewrite Hflag.
    destruct Htok as [-> | (c & -> & ->)].
    + assert (Hs : starts_with ("-"%char :: "-"%char :: nm) (js "--") = true)
        by (simpl; apply starts_with_nil).
      rewrite Hs. unfold slice_from. simpl skipn. rewrite Hh.
      unfold bind. cbn [fst snd]. rewrite (has_error_snd _ st) by reflexivity. rewrite Herr.
      eexists; exists o'; split; [reflexivity|]. simpl. auto.
    + assert (Hs : starts_with ["-"%char; c] (js "--") = false).
      { change (starts_with ["-"%char; c] (js "--"))
          with (ascii_eqb "-" "-" && (ascii_eqb "-" c && starts_with [] [])).
        rewrite (flag_pair_letter c Hflag). reflexivity. }
      rewrite Hs. simpl. rewrite Hh.
      unfold bind. cbn [fst snd]. rewrite (has_error_snd _ st) by reflexivity. rewrite Herr.
      eexists; exists o'; split; [reflexivity|]. simpl. auto.
  - intros env. split; [vm_compute; reflexivity|].
    split; ok_exists; vm_compute; repeat split; reflexivity.
Qed.

(** Claim C3 (code bug): a boolean flag given in a cluster that ends in
    ['-'] does consume the next token.  With the schema
    [["a:n:1~100", "?b:b"]], the cluster [-b-] in [["cmd", "-b-", "50"]]
    sets [b = true] in the loop over its characters, but the last
    character ['-'] reaches [continue] before [handleArg], so [deleteNext]
    keeps its initial [true] and the named pass deletes index [2] as well
    as [1].  The token ["50"] is dropped unused: [a] stays unset and the
    parse reports [argument "a" (number) is missing].  The direct flag
    [-b] in the same position keeps ["50"], which is assigned to [a]. *)
Theorem trailing_dash_cluster_drops_next_token (env : JsEnv) :
  match parseNamedArgs env [js "cmd"; js "-b-"; js "50"] ([option_a; option_b], no_error) with
  | Ok (_, deleteIndeces) => deleteIndeces = Some [1; 2]
  | Throw _ => False
  end /\
  (exists st, parseArguments env [js "cmd"; js "-b-"; js "50"] cmd_ab = Ok st /\
     perr_message st = Some (missing_number_msg "a") /\
     value_of st (js "b") = Some (JBool true) /\
     value_of st (js "a") = Some JUndefined) /\
  (exists st, parseArguments env [js "cmd"; js "-b"; js "50"] cmd_ab = Ok st /\
     perr_message st = None /\
     value_of st (js "b") = Some (JBool true) /\
     value_of st (js "a") = Some (JNum 50)).
Proof.
  split; [vm_compute; reflexivity|].
  split; ok_exists; vm_compute; repeat split; reflexivity.
Qed.

(** ** Clusters of short flags *)

(** Claim C6 (code bug): with the schema [["a:b", "?b:b"]], whose [a] is a
    required boolean, the direct flags [--a] and [-a] are refused with
    [Property "a" is not optional, must be passed directly] at token 1, but
    the cluster [-ab] is accepted: the parse ends with no parsing error and
    [a = true].  A character of a cluster that is not the last one gets no
    optionality check. *)
Theorem required_flag_in_cluster_accepted (env : JsEnv) :
  (exists st, parseArguments env [js "cmd"; js "-ab"] cmd_req_ab = Ok st /\
     perr_message st = None /\
     option_map optional (lookup_option st (js "a")) = Some false /\
     value_of st (js "a") = Some (JBool true) /\
     value_of st (js "b") = Some (JBool true)) /\
  (exists st, parseArguments env [js "cmd"; js "--a"] cmd_req_ab = Ok st /\
     perr_message st = Some (quoted "Property " (js "a")
                             ++ js " is not optional, must be passed directly") /\
     errTokenIndex (snd st) = Some 1%Z) /\
  (exists st, parseArguments env [js "cmd"; js "-a"] cmd_req_ab = Ok st /\
     perr_message st = Some (quoted "Property " (js "a")
                             ++ js " is not optional, must be passed directly") /\
     errTokenIndex (snd st) = Some 1%Z).
Proof.
  split; [|split]; ok_exists; vm_compute; repeat split; reflexivity.
Qed.

(** Claim C7 (code bug): with the schema [["?a:n", "?b:b"]], the cluster
    [-ab], whose non-last character [a] names a number option, does not end
    in the parse error [Property "a" is not a boolean and must be assigned
    a value]: [parseArguments] throws a [TypeError], because the loop calls
    [_parseArgumentValue(argOption, true)] on every character before the
    boolean check, and the number path calls [true.startsWith].  The same
    exception is thrown when the number option is the last character
    ([-ba 5]), which therefore cannot take the next token as its value.  A
    non-last character naming no option gives the parse error
    [Unexpected property "z"]. *)
Theorem number_flag_in_cluster_throws (env : JsEnv) :
  parseArguments env [js "cmd"; js "-ab"] cmd_opt_num_ab = Throw TypeError /\
  parseArguments env [js "cmd"; js "-ba"; js "5"] cmd_opt_num_ab = Throw TypeError /\
  (exists st, parseArguments env [js "cmd"; js "-zb"] cmd_opt_num_ab = Ok st /\
     perr_message st = Some (quoted "Unexpected property " (js "z")) /\
     errTokenIndex (snd st) = Some 1%Z).
Proof.
  split; [vm_compute; reflexivity|]. split; [vm_compute; reflexivity|].
  ok_exists; vm_compute; repeat split; reflexivity.
Qed.

(** ** The command token *)

(** Claim C10 (as amended): the positional pass never reads index 0, which
    [parseArguments] always adds to the ignore list; so when the first
    token is not flag-shaped, the result does not depend on it at all.
    With the schema [["a:n"]], [["50"]] ends in the missing-argument error
    of [a] and [["cmd", "50"]] sets [a = 50].  The named pass still scans
    index 0 (see the counterexample below). *)
Theorem first_token_not_positional :
  (forall env command t0 t0' rest,
    is_flag_token t0 = false -> is_flag_token t0' = false ->
    parseArguments env (t0 :: rest) command = parseArguments env (t0' :: rest) command) /\
  (forall env,
    (exists st, parseArguments env [js "50"] cmd_a = Ok st /\
       perr_message st = Some (missing_number_msg "a") /\
       value_of st (js "a") = Some JUndefined) /\
    (exists st, parseArguments env [js "cmd"; js "50"] cmd_a = Ok st /\
       perr_message st = None /\
       value_of st (js "a") = Some (JNum 50))).
Proof.
  split.
  - intros env command t0 t0' rest H0 H0'.
    unfold parseArguments.
    destruct (mapM parseArgOptions (argsArray (args command))) as [opts0|e]; [|reflexivity].
    cbn [bind].
    destruct (apply_defaults opts0 (defaultValues command)) as [opts1|e]; [|reflexivity].
    cbn [bind].
    destruct (match object_entries (args command) with
              | Some es => apply_descriptions opts1 0 es
              | None => Ok opts1 end) as [opts2|e]; [|reflexivity].
    cbn [bind].
    assert (Hn : parseNamedArgs env (t0 :: rest) (opts2, no_error)
                 = parseNamedArgs env (t0' :: rest) (opts2, no_error)).
    { unfold parseNamedArgs. simpl named_loop.
      unfold named_step. rewrite H0, H0'.
      destruct (has_error (opts2, no_error)); [reflexivity|].
      apply named_loop_tokens. intros [|j] Hj; [lia|]. reflexivity. }
    rewrite Hn.
    destruct (parseNamedArgs env (t0' :: rest) (opts2, no_error)) as [[st ign]|e];
      [|reflexivity].
    cbn [bind]. destruct (has_error st); [reflexivity|].
    rewrite !positional_loop_ignored; [reflexivity| |];
      apply existsb_exists; exists 0; split; auto; apply in_or_app; right; left; reflexivity.
  - intros env. split; ok_exists; vm_compute; repeat split; reflexivity.
Qed.

Lemma first_token_not_positional_witness :
  parseArguments sample_env [js "cmd"; js "50"] cmd_a
  = parseArguments sample_env [js "x"; js "50"] cmd_a.
Proof.
  destruct first_token_not_positional as [H _].
  apply H; vm_compute; reflexivity.
Defined.

(** Claim C10, counterexample: the token at index 0 is assigned to an
    option when it has the shape of a flag: with the schema
    [["a:n:1~100", "?b:b"]], [["-b", "50"]] sets [b = true] from token 0. *)
Lemma first_token_read_as_flag :
  exists st, parseArguments sample_env [js "-b"; js "50"] cmd_ab = Ok st /\
    perr_message st = None /\
    value_of st (js "b") = Some (JBool true) /\
    option_map tokenIndex (lookup_option st (js "b")) = Some (Some 0).
Proof. ok_exists; vm_compute; repeat split; reflexivity. Qed.

(** ** Unknown type codes *)

(** Claim C8: a spec string whose type code (the text after the first
    [:] once the [?] and [*] prefixes are stripped) is none of [n], [i],
    [bn], [b], [s], [t], [f], [c], [m], [sm], [e] makes [parseArgOptions]
    throw [DeveloperError("Invalid argument type: " + code)], with no
    parsing error returned; and when such a string is anywhere in a
    command's schema, [parseArguments], which compiles every spec string
    before looking at the tokens, throws a [DeveloperError] whatever the
    tokens are. *)
Theorem unknown_type_code_throws :
  (forall s,
    includes_char (spec_body s) ":"%char = true ->
    ~ In (spec_type_code s) known_type_codes ->
    parseArgOptions s = Throw (DeveloperError (js "Invalid argument type: " ++ spec_type_code s))) /\
  (forall env tokens command s,
    In s (argsArray (args command)) ->
    includes_char (spec_body s) ":"%char = true ->
    ~ In (spec_type_code s) known_type_codes ->
    exists m, parseArguments env tokens command = Throw (DeveloperError m)).
Proof.
  assert (H : forall s,
    includes_char (spec_body s) ":"%char = true ->
    ~ In (spec_type_code s) known_type_codes ->
    parseArgOptions s = Throw (DeveloperError (js "Invalid argument type: " ++ spec_type_code s))).
  { intros s. unfold spec_type_code, spec_body, parseArgOptions.
    destruct (starts_with s (js "?")); cbv beta iota;
      destruct (starts_with _ (js "*")); cbv beta iota; intros H1 H2;
      rewrite H1, (type_of_code_unknown _ H2); reflexivity. }
  split; [exact H|].
  intros env tokens command s Hin H1 H2.
  destruct (mapM_parseArgOptions_throws _ s Hin (ex_intro _ _ (H s H1 H2))) as [m Hm].
  exists m. unfold parseArguments. rewrite Hm. reflexivity.
Qed.

Lemma unknown_type_code_throws_witness :
  parseArgOptions (js "?a:q") = Throw (DeveloperError (js "Invalid argument type: q")) /\
  exists m, parseArguments sample_env [js "cmd"]
              (mkCommand (js "cmd") (ArgsArray [js "a:n"; js "?*b:q"]) [] false)
            = Throw (DeveloperError m).
Proof.
  destruct unknown_type_code_throws as [H1 H2]. split.
  - apply (H1 (js "?a:q")); [vm_compute; reflexivity|].
    vm_compute. intros H. repeat (destruct H as [H|H]; [discriminate|]). exact H.
  - apply (H2 sample_env [js "cmd"] (mkCommand (js "cmd") (ArgsArray [js "a:n"; js "?*b:q"]) [] false)
             (js "?*b:q")).
    + simpl. right. left. reflexivity.
    + vm_compute. reflexivity.
    + vm_compute. intros H. repeat (destruct H as [H|H]; [discriminate|]). exact H.
Defined.

(** ** Command.run and finishCommand *)



(** Claim C9 (code bug): when the handler throws a nullish value (for
    instance an async handler returning [Promise.reject()]), [run] with
    [callFinishFunc = true] never calls [finishCommand]: [error.message]
    in the [catch] block throws a [TypeError], which rejects the promise
    [run] returns.  This holds with and without argument processing; with
    processing, [["cmd", "50"]] against the schema
    [["a:n:1~100", "?b:b"]] reaches the handler. *)
Theorem run_nullish_throw_skips_finish :
  (forall env cmd act tokens rawArgs,
    let '(evs, out) := run env cmd (fun _ => HThrows ThrownNullish) act tokens rawArgs true false in
    count_finish evs = 0 /\ out = RunRejects TypeError) /\
  (forall env act,
    let '(evs, out) := run env cmd_ab (fun _ => HThrows ThrownNullish) act
                           [js "cmd"; js "50"] (js "50") true true in
    count_finish evs = 0 /\ out = RunRejects TypeError /\
    existsb (fun ev => match ev with EvCallback _ => true | _ => false end) evs = true).
Proof.
  split.
  - intros env cmd act tokens rawArgs. split; reflexivity.
  - intros env act. vm_compute. split; [reflexivity|]. split; reflexivity.
Qed.

(** ** Operator splitting in [_parseNumber] *)

(** Claim C2: the operator passes run in the order [+ - * / ^]; the scan
    of a pass that ends balanced returns the LAST index holding the
    operator at parenthesis depth 0 (the depth counted up to and including
    that character); and [_parseNumber] evaluates the two halves around
    that index with its recursive call.  For any recursive call [rec],
    [2+3+4] is evaluated from [rec "2+3"] and [rec "4"], and [8/4/2] from
    [rec "8/4"] and [rec "2"]; so [parseNumber] gives 9 and 1. *)
Theorem operator_split_last_top_level :
  (forall env, map fst (operators env) = ["+"%char; "-"%char; "*"%char; "/"%char; "^"%char]) /\
  (forall op s idx,
    scan_op op s 0 0 None = Some (0%Z, Some idx) ->
    nth_error s idx = Some op /\
    paren_depth (firstn (S idx) s) = 0%Z /\
    forall j, idx < j -> nth_error s j = Some op -> paren_depth (firstn (S j) s) <> 0%Z) /\
  (forall env name rec,
    parse_number_body env name rec (js "2+3+4") =
      match rec (js "2+3") with
      | NumOk a => match rec (js "4") with
                   | NumOk b => NumOk (PrimFloat.add a b)
                   | r => r
                   end
      | r => r
      end /\
    parse_number_body env name rec (js "8/4/2") =
      match rec (js "8/4") with
      | NumOk a => match rec (js "2") with
                   | NumOk b => if PrimFloat.eqb b 0
                                then NumErr (prop_msg name "Can't divide by zero")
                                else NumOk (PrimFloat.div a b)
                   | r => r
                   end
      | r => r
      end) /\
  (forall env name,
    parseNumber env name (js "2+3") = NumOk 5 /\
    parseNumber env name (js "2+3+4") = NumOk 9 /\
    parseNumber env name (js "8/4") = NumOk 2 /\
    parseNumber env name (js "8/4/2") = NumOk 1).
Proof.
  split; [reflexivity|]. split.
  - intros op s idx H.
    destruct (scan_op_spec op s 0 0 None 0 (Some idx) H) as [_ [[Hr _] | (j & Hr & Hj & Hd & Hl)]];
      [discriminate|].
    simpl in Hr. inversion Hr; subst j. split; [exact Hj|]. split; [lia|].
    intros j Hlt Hop. specialize (Hl j Hlt Hop). lia.
  - split.
    + intros env name rec. split; vm_compute;
        repeat match goal with
               | |- context [rec ?x] => destruct (rec x)
               | |- context [PrimFloat.eqb ?a ?b] => destruct (PrimFloat.eqb a b)
               end; reflexivity.
    + intros env name. vm_compute. repeat split.
Qed.

Lemma operator_split_last_top_level_witness :
  nth_error (js "(1+2)*3+4") 7 = Some "+"%char /\
  paren_depth (firstn 8 (js "(1+2)*3+4")) = 0%Z /\
  forall j, 7 < j -> nth_error (js "(1+2)*3+4") j = Some "+"%char ->
    paren_depth (firstn (S j) (js "(1+2)*3+4")) <> 0%Z.
Proof.
  destruct operator_split_last_top_level as [_ [H _]].
  apply H. vm_compute. reflexivity.
Defined.

(** ** Failures of [_parseNumber] *)

(** Claim C4: on every input string, [_parseNumber] returns a number or
    the sentinel, never anything else, and the sentinel always carries a
    message [At property "<name>": ...] naming the owning option; a
    division whose right operand evaluates to 0 is the sentinel [Can't
    divide by zero], as for [1/0] and [1/(1-1)], and [sqrt(-1)] is the
    sentinel [sqrt is only defined on [0, inf)]. *)
Theorem parseNumber_sentinel :
  (forall env name s,
    (exists v, parseNumber env name s = NumOk v) \/
    (exists text, parseNumber env name s = NumErr (prop_msg name text))) /\
  (forall env name,
    parseNumber env name (js "1/0") = NumErr (prop_msg name "Can't divide by zero") /\
    parseNumber env name (js "1/(1-1)") = NumErr (prop_msg name "Can't divide by zero") /\
    parseNumber env name (js "sqrt(-1)")
      = NumErr (prop_msg name "sqrt is only defined on [0, inf)")).
Proof.
  split.
  - intros env name s. apply parse_number_sentinel. unfold parseNumber. lia.
  - intros env name. split; [|split]; vm_compute; reflexivity.
Qed.

(** ** Variables, assignments and [Terminal.input] *)

Ltac ascii_cases :=
  let x := fresh "x" in
  intros x; destruct x as [[] [] [] [] [] [] [] []]; vm_compute; congruence.

Lemma whitespace_not_alnum : forall x, is_str_whitespace x = true -> is_alnum x = false.
Proof. ascii_cases. Qed.

Lemma eq_sign_not_alnum : is_alnum "="%char = false.
Proof. reflexivity. Qed.

Lemma eq_sign_not_whitespace : is_str_whitespace "="%char = false.
Proof. reflexivity. Qed.

Lemma alnum_not_eq_sign : forall x, is_alnum x = true -> ascii_eqb x "="%char = false.
Proof. ascii_cases. Qed.

Lemma whitespace_not_eq_sign : forall x, is_str_whitespace x = true -> ascii_eqb x "="%char = false.
Proof. ascii_cases. Qed.

Lemma drop_while_app_stop p a b :
  forallb p a = true -> (match b with [] => True | x :: _ => p x = false end) ->
  drop_while p (a ++ b) = b.
Proof.
  intros Ha Hb; induction a as [|x a IH]; simpl in *.
  - destruct b as [|y b]; [reflexivity|]. simpl. rewrite Hb. reflexivity.
  - apply andb_true_iff in Ha as [-> Ha]. apply IH, Ha.
Qed.

Lemma take_while_app_stop p a b :
  forallb p a = true -> (match b with [] => True | x :: _ => p x = false end) ->
  take_while p (a ++ b) = a.
Proof.
  intros Ha Hb; induction a as [|x a IH]; simpl in *.
  - destruct b as [|y b]; [reflexivity|]. simpl. rewrite Hb. reflexivity.
  - apply andb_true_iff in Ha as [-> Ha]. rewrite IH by exact Ha. reflexivity.
Qed.

Lemma split_acc_prefix sep p v cur :
  forallb (not_char sep) p = true ->
  split_acc sep (p ++ sep :: v) cur = (cur ++ p) :: split_acc sep v [].
Proof.
  revert cur; induction p as [|x p IH]; intros cur Hp; simpl in *.
  - unfold ascii_eqb. rewrite Ascii.eqb_refl, app_nil_r. reflexivity.
  - apply andb_true_iff in Hp as [Hx Hp]. unfold not_char in Hx.
    apply negb_true_iff in Hx. rewrite Hx, IH by exact Hp.
    rewrite <- app_assoc. reflexivity.
Qed.

Lemma split_acc_head sep v cur :
  exists rest, split_acc sep v cur = (cur ++ take_while (not_char sep) v) :: rest.
Proof.
  revert cur; induction v as [|x v IH]; intros cur; simpl.
  - exists []. rewrite app_nil_r. reflexivity.
  - unfold not_char; destruct (ascii_eqb x sep) eqn:E; simpl.
    + exists (split_acc sep v []). rewrite app_nil_r. reflexivity.
    + destruct (IH (cur ++ [x])) as [rest ->]. exists rest.
      rewrite <- app_assoc. reflexivity.
Qed.

Lemma forallb_impl (p q : ascii -> bool) (l : jstr) :
  forallb p l = true -> (forall x, p x = true -> q x = true) -> forallb q l = true.
Proof.
  intros H Hpq; induction l as [|x l IH]; [reflexivity|]. simpl in *.
  apply andb_true_iff in H as [Hx H]. rewrite Hpq, IH; auto.
Qed.

Lemma match_assignment_eq c r ws v :
  is_letter c = true -> forallb is_alnum r = true -> forallb is_str_whitespace ws = true ->
  match_assignment ("$"%char :: c :: r ++ ws ++ "="%char :: v) = Some (c :: r).
Proof.
  intros Hc Hr Hws. unfold match_assignment. rewrite Hc. cbn [ascii_eqb Ascii.eqb andb].
  assert (Hstop : match ws ++ "="%char :: v with [] => True | x :: _ => is_alnum x = false end).
  { destruct ws as [|w ws]; [reflexivity|]. simpl in Hws |- *.
    apply andb_true_iff in Hws as [Hw _]. apply whitespace_not_alnum, Hw. }
  rewrite (drop_while_app_stop _ _ _ Hr Hstop), (take_while_app_stop _ _ _ Hr Hstop).
  rewrite (drop_while_app_stop _ _ ("="%char :: v) Hws eq_sign_not_whitespace).
  reflexivity.
Qed.

Lemma extractAssignment_eq c r ws v :
  is_letter c = true -> forallb is_alnum r = true -> forallb is_str_whitespace ws = true ->
  extractAssignment ("$"%char :: c :: r ++ ws ++ "="%char :: v)
  = Ok (Some (c :: r, Some (take_while (not_char "="%char) v))).
Proof.
  intros Hc Hr Hws. unfold extractAssignment, commandIsAssignment, extractVariableName.
  rewrite (match_assignment_eq _ _ _ _ Hc Hr Hws). cbn [negb bind].
  unfold js_split.
  assert (Hp : forallb (not_char "="%char) ("$"%char :: c :: r ++ ws) = true).
  { cbn [forallb]. rewrite forallb_app.
    rewrite (forallb_impl is_alnum (not_char "="%char) r Hr (fun x Hx => f_equal negb (alnum_not_eq_sign x Hx))),
      (forallb_impl is_str_whitespace (not_char "="%char) ws Hws (fun x Hx => f_equal negb (whitespace_not_eq_sign x Hx))).
    unfold not_char at 2. rewrite alnum_not_eq_sign by (unfold is_alnum; rewrite Hc; reflexivity).
    reflexivity. }
  replace ("$"%char :: c :: r ++ ws ++ "="%char :: v)
    with (("$"%char :: c :: r ++ ws) ++ "="%char :: v) by (simpl; rewrite <- app_assoc; reflexivity).
  rewrite (split_acc_prefix _ _ _ _ Hp).
  destruct (split_acc_head "="%char v []) as [rest ->]. reflexivity.
Qed.

Lemma space_not_apostrophe : forall x, is_space x = true -> is_apostrophe x = false.
Proof. ascii_cases. Qed.

Lemma run_word w toks temp :
  forallb is_plain w = true ->
  tokenize_run w (mkTokState toks temp None) = mkTokState toks (temp ++ w) None.
Proof.
  revert temp; induction w as [|x w IH]; intros temp Hw; simpl in *.
  - rewrite app_nil_r. reflexivity.
  - apply andb_true_iff in Hw as [Hx Hw]. unfold is_plain in Hx.
    apply andb_true_iff in Hx as [H1 H2]. apply negb_true_iff in H1, H2.
    unfold tokenize_run in *. simpl. unfold tokenize_step at 2. simpl.
    rewrite H1, H2. rewrite IH by exact Hw. rewrite <- app_assoc. reflexivity.
Qed.

Lemma step_shift toks temp a c :
  tokenize_step (mkTokState toks temp a) c
  = let st := tokenize_step (mkTokState [] temp a) c in
    mkTokState (toks ++ tokens st) (tempToken st) (activeApostrophe st).
Proof.
  unfold tokenize_step; simpl.
  destruct a as [q|].
  - destruct (ascii_eqb c q); simpl; rewrite ?app_nil_r; reflexivity.
  - destruct (is_apostrophe c); [simpl; rewrite app_nil_r; reflexivity|].
    destruct (is_space c); [|simpl; rewrite app_nil_r; reflexivity].
    destruct (negb (jstr_eqb temp [])); simpl; rewrite ?app_nil_r; reflexivity.
Qed.

Lemma run_shift r : forall toks temp a,
  tokenize_run r (mkTokState toks temp a)
  = let st := tokenize_run r (mkTokState [] temp a) in
    mkTokState (toks ++ tokens st) (tempToken st) (activeApostrophe st).
Proof.
  induction r as [|c r IH]; intros toks temp a.
  - simpl. rewrite app_nil_r. reflexivity.
  - unfold tokenize_run in *. simpl fold_left.
    rewrite step_shift. simpl.
    destruct (tokenize_step (mkTokState [] temp a) c) as [ts tt ta]. simpl.
    rewrite (IH (toks ++ ts)), (IH ts). simpl. rewrite app_assoc. reflexivity.
Qed.

Lemma tokenize_word_first w rest :
  w <> [] -> forallb is_plain w = true ->
  (match rest with [] => True | x :: _ => is_space x = true end) ->
  tokenize (w ++ rest) = w :: tokenize rest.
Proof.
  intros Hne Hw Hr. unfold tokenize.
  rewrite Tokenizer.run_app, run_word by exact Hw. simpl.
  assert (Hj : jstr_eqb w [] = false) by (destruct w; [congruence|reflexivity]).
  destruct rest as [|x r].
  - simpl. rewrite Hj. reflexivity.
  - change (x :: r) with ([x] ++ r). rewrite !Tokenizer.run_app.
    unfold tokenize_run at 2 4. simpl. unfold tokenize_step. simpl.
    rewrite (space_not_apostrophe _ Hr), Hr, Hj. simpl.
    rewrite run_shift. simpl.
    destruct (negb (jstr_eqb (tempToken (tokenize_run r (mkTokState [] [] None))) [])); reflexivity.
Qed.

Lemma drop_while_suffix p s : exists pre, s = pre ++ drop_while p s.
Proof.
  induction s as [|x s IH]; simpl.
  - exists []. reflexivity.
  - destruct (p x).
    + destruct IH as [pre Hpre]. exists (x :: pre). simpl. rewrite <- Hpre. reflexivity.
    + exists []. reflexivity.
Qed.

Lemma forallb_app_inv_r (p : ascii -> bool) a b : forallb p (a ++ b) = true -> forallb p b = true.
Proof. rewrite forallb_app. intros H; apply andb_true_iff in H; apply H. Qed.

Lemma match_assignment_no_eq s :
  forallb (not_char "="%char) s = true -> match_assignment s = None.
Proof.
  intros Hs. unfold match_assignment.
  destruct s as [|d [|c r]]; try reflexivity.
  destruct (ascii_eqb d "$"%char && is_letter c); [|reflexivity].
  destruct (drop_while_suffix is_alnum r) as [pre1 E1].
  destruct (drop_while_suffix is_str_whitespace (drop_while is_alnum r)) as [pre2 E2].
  destruct (drop_while is_str_whitespace (drop_while is_alnum r)) as [|e rest] eqn:E; [reflexivity|].
  rewrite E2, app_assoc in E1. rewrite E1 in Hs.
  apply andb_true_iff in Hs as [_ Hs]. apply andb_true_iff in Hs as [_ Hs].
  apply forallb_app_inv_r in Hs. simpl in Hs. apply andb_true_iff in Hs as [He _].
  unfold not_char in He. apply negb_true_iff in He. rewrite He. reflexivity.
Qed.

Lemma take_while_forallb p s : forallb p (take_while p s) = true.
Proof.
  induction s as [|x s IH]; simpl; [reflexivity|].
  destruct (p x) eqn:E; simpl; [rewrite E, IH|]; reflexivity.
Qed.


Lemma extractAssignment_none s :
  forallb (not_char "="%char) s = true -> extractAssignment s = Ok None.
Proof.
  intros Hs. unfold extractAssignment, commandIsAssignment.
  rewrite match_assignment_no_eq by exact Hs. reflexivity.
Qed.

Lemma assignment_not_variable c r ws v :
  forallb is_alnum r = true -> forallb is_str_whitespace ws = true ->
  isVariable ("$"%char :: c :: r ++ ws ++ "="%char :: v) = false.
Proof.
  intros Hr Hws. unfold isVariable. rewrite forallb_app, Hr.
  destruct ws as [|w ws]; simpl.
  - rewrite !andb_false_r. reflexivity.
  - simpl in Hws. apply andb_true_iff in Hws as [Hw _].
    rewrite (whitespace_not_alnum _ Hw). rewrite !andb_false_r. reflexivity.
Qed.


Lemma input_variable_eq ce t text tm :
  isVariable text = true ->
  input ce t text tm
  = Ok (t, [match cache_get (variableCache t) (tl text) with
            | None => IEPrintError (undefined_var_msg (tl text))
            | Some v => IEPrintLine v
            end; IEPrompt]).
Proof.
  intros Hv. unfold input. rewrite Hv.
  destruct text as [|d [|c r]]; try discriminate.
  unfold isVariable in Hv. apply andb_true_iff in Hv as [Hv Hr].
  apply andb_true_iff in Hv as [Hd Hc]. unfold ascii_eqb in Hd. apply Ascii.eqb_eq in Hd. subst d.
  unfold extractVariableName.
  replace (("$"%char :: c :: r) ++ js "=") with ("$"%char :: c :: r ++ [] ++ "="%char :: [])
    by reflexivity.
  rewrite (match_assignment_eq c r [] [] Hc Hr eq_refl). cbn [bind tl].
  destruct (cache_get (variableCache t) (c :: r)); reflexivity.
Qed.

(** An assignment [$name = value] resets [variableCache[name]] to the
    empty string, routes the output to the cache, and otherwise behaves as
    [input] on the assigned text cut at its first [=]. *)
Theorem input_assignment_runs_value ce t c r ws v tm :
  is_letter c = true -> forallb is_alnum r = true -> forallb is_str_whitespace ws = true ->
  isVariable (take_while (not_char "="%char) v) = false ->
  input ce t ("$"%char :: c :: r ++ ws ++ "="%char :: v) tm
  = match input ce t (take_while (not_char "="%char) v) tm with
    | Ok (_, effects) => Ok (assign_var t (c :: r), effects)
    | Throw e => Throw e
    end.
Proof.
  intros Hc Hr Hws Hv. unfold input.
  rewrite (assignment_not_variable _ _ _ _ Hr Hws), Hv.
  rewrite (extractAssignment_eq _ _ _ _ Hc Hr Hws).
  rewrite (extractAssignment_none _ (take_while_forallb _ v)). cbn [bind].
  destruct (tokenize (take_while (not_char "="%char) v)) as [|w ts]; [reflexivity|].
  simpl. destruct (ce w); reflexivity.
Qed.

(** For a text that starts directly with an unquoted command word [w]
    followed by a blank or the end, [input] passes all tokens (the command
    word first) and the raw argument string [rest] after the word; an
    unknown command goes to [cmdnotfound] with the tokens
    [["cmdnotfound", w, rest]]. *)
Theorem input_raw_args ce t w rest tm :
  w <> [] -> forallb is_plain w = true ->
  (match rest with [] => True | x :: _ => is_space x = true end) ->
  isVariable (w ++ rest) = false -> commandIsAssignment (w ++ rest) = false ->
  input ce t (w ++ rest) tm
  = Ok (set_channel t OCUser,
        [if ce w then IERun w (w :: tokenize rest) rest (negb tm)
         else IECmdNotFound [js "cmdnotfound"; w; rest] w (negb tm)]).
Proof.
  intros Hne Hw Hrest Hv Ha. unfold input. rewrite Hv.
  unfold extractAssignment. rewrite Ha. cbn [negb bind].
  rewrite (tokenize_word_first _ _ Hne Hw Hrest). simpl.
  unfold slice_from. rewrite skipn_app, skipn_all, Nat.sub_diag. simpl.
  destruct (ce w); reflexivity.
Qed.


(** [extractAssignment] keeps only the text between the first and the
    second [=] as the value: [command.split("=", 2)] drops everything from
    the second [=] on. *)
Theorem extractAssignment_drops_after_second_eq c r ws v1 v2 :
  is_letter c = true -> forallb is_alnum r = true -> forallb is_str_whitespace ws = true ->
  forallb (not_char "="%char) v1 = true ->
  extractAssignment ("$"%char :: c :: r ++ ws ++ "="%char :: v1 ++ "="%char :: v2)
  = Ok (Some (c :: r, Some v1)).
Proof.
  intros Hc Hr Hws Hv1. rewrite (extractAssignment_eq _ _ _ _ Hc Hr Hws).
  rewrite take_while_app_stop by (exact Hv1 || reflexivity). reflexivity.
Qed.

Lemma input_assignment_runs_value_witness :
  input ls_exists term0 ("$"%char :: "x"%char :: [] ++ js " " ++ "="%char :: js " ls -a") false
  = match input ls_exists term0 (take_while (not_char "="%char) (js " ls -a")) false with
    | Ok (_, effects) => Ok (assign_var term0 (js "x"), effects)
    | Throw e => Throw e
    end.
Proof. apply input_assignment_runs_value; reflexivity. Defined.

Lemma input_raw_args_witness :
  input ls_exists term0 (js "ls" ++ js " -a") false
  = Ok (set_channel term0 OCUser,
        [if ls_exists (js "ls") then IERun (js "ls") (js "ls" :: tokenize (js " -a")) (js " -a") (negb false)
         else IECmdNotFound [js "cmdnotfound"; js "ls"; js " -a"] (js "ls") (negb false)]).
Proof. apply input_raw_args; [discriminate|reflexivity|reflexivity|reflexivity|reflexivity]. Defined.


Lemma extractAssignment_drops_after_second_eq_witness :
  extractAssignment ("$"%char :: "x"%char :: [] ++ [] ++ "="%char :: js "a" ++ "="%char :: js "b")
  = Ok (Some (js "x", Some (js "a"))).
Proof. apply extractAssignment_drops_after_second_eq; reflexivity. Defined.

(** ** Path resolution *)

Lemma getFile_loop_app_eq fs p q curr :
  getFile_loop fs (p ++ q) curr
  = match getFile_loop fs p curr with RFile c => getFile_loop fs q c | other => other end.
Proof.
  revert curr; induction p as [|n p IH]; intros curr; [reflexivity|].
  cbn [app getFile_loop].
  destruct (jstr_eqb n (js ".")); [apply IH|].
  destruct (jstr_eqb n (js "..")).
  { destruct (file_at fs curr) as [f|]; [|reflexivity].
    destruct (parent f); [apply IH|reflexivity]. }
  destruct (jstr_eqb n (js "~")).
  { destruct (to_top fs (S (List.length fs)) curr); try reflexivity. apply IH. }
  destruct (file_at fs curr) as [f|]; [|reflexivity].
  destruct (is_directory f); [|reflexivity].
  destruct (find_child fs (children f) n) as [[c|]|]; try reflexivity. apply IH.
Qed.

(** [DirectoryFile.getFile] walks the path items one at a time: resolving
    [p ++ q] is resolving [p], then resolving [q] from the file reached
    (a failure of [p] is the result). *)
Theorem getFile_loop_app fs p q curr :
  getFile_loop fs (p ++ q) curr
  = match getFile_loop fs p curr with RFile c => getFile_loop fs q c | other => other end.
Proof. apply getFile_loop_app_eq. Qed.

(** [DirectoryFile.getFile] skips the item ["."]: removing every ["."] from
    a path leaves the result unchanged. *)
Theorem getFile_loop_dot fs p curr :
  getFile_loop fs (filter (fun n => negb (jstr_eqb n (js "."))) p) curr = getFile_loop fs p curr.
Proof.
  revert curr; induction p as [|n p IH]; intros curr; [reflexivity|].
  cbn [filter]. destruct (jstr_eqb n (js ".")) eqn:Ed; cbn [negb].
  - cbn [getFile_loop]. rewrite Ed. apply IH.
  - cbn [getFile_loop]. rewrite Ed.
    destruct (jstr_eqb n (js "..")).
    { destruct (file_at fs curr) as [f|]; [|reflexivity].
      destruct (parent f); [apply IH|reflexivity]. }
    destruct (jstr_eqb n (js "~")).
    { destruct (to_top fs (S (List.length fs)) curr); try reflexivity. apply IH. }
    destruct (file_at fs curr) as [f|]; [|reflexivity].
    destruct (is_directory f); [|reflexivity].
    destruct (find_child fs (children f) n) as [[c|]|]; try reflexivity. apply IH.
Qed.

Lemma path_name_not_special n :
  path_name n = true ->
  jstr_eqb n (js ".") = false /\ jstr_eqb n (js "..") = false /\ jstr_eqb n (js "~") = false.
Proof.
  unfold path_name. intros H.
  repeat (apply andb_true_iff in H as [H ?]). repeat split; apply negb_true_iff; assumption.
Qed.

(** If a path reaches a file that is not a directory, a further ordinary
    name makes [DirectoryFile.getFile] throw a [TypeError]: the file has no
    [findChildByName]. *)
Theorem getFile_through_plain_file fs p name q curr c f :
  getFile_loop fs p curr = RFile c -> file_at fs c = Some f -> is_directory f = false ->
  path_name name = true ->
  getFile_loop fs (p ++ name :: q) curr = RTypeError.
Proof.
  intros Hp Hf Hd Hn. rewrite getFile_loop_app_eq, Hp.
  destruct (path_name_not_special _ Hn) as (H1 & H2 & H3).
  cbn [getFile_loop]. rewrite H1, H2, H3, Hf, Hd. reflexivity.
Qed.

Lemma to_top_placed fs rt r k :
  placed fs rt r k -> forall fuel, k < fuel -> to_top fs fuel r = RFile rt.
Proof.
  induction 1 as [f Hf Hd Hp Hn|a fa b fb k Hpl IH Ha Hda Hb Hpb Hfind Hname];
    intros [|fuel] Hlt; try lia; cbn [to_top].
  - rewrite Hf, Hp. reflexivity.
  - rewrite Hb, Hpb. apply IH. lia.
Qed.

(** For a file reachable by names from the root, the item ["~"] climbs the
    parent chain to the root: resolving ["~" :: p] from it is resolving [p]
    from the root. *)
Theorem tilde_goes_to_root fs rt r k p :
  placed fs rt r k -> k < List.length fs ->
  getFile_loop fs (js "~" :: p) r = getFile_loop fs p rt.
Proof.
  intros Hpl Hk. cbn [getFile_loop].
  rewrite (to_top_placed _ _ _ _ Hpl (S (List.length fs))) by lia. reflexivity.
Qed.

Lemma split_class_word p w rest cur :
  forallb (fun c => negb (p c)) w = true ->
  split_class p (w ++ rest) cur = split_class p rest (cur ++ w).
Proof.
  revert cur; induction w as [|x w IH]; intros cur Hw; simpl in *.
  - rewrite app_nil_r. reflexivity.
  - apply andb_true_iff in Hw as [Hx Hw]. apply negb_true_iff in Hx. rewrite Hx, IH by exact Hw.
    rewrite <- app_assoc. reflexivity.
Qed.

Lemma path_name_parts n :
  path_name n = true -> n <> [] /\ forallb (fun c => negb (is_path_sep c)) n = true.
Proof.
  unfold path_name. intros H. repeat (apply andb_true_iff in H as [H ?]).
  split; [|assumption]. intros ->. discriminate.
Qed.

Lemma fromString_join l :
  forallb path_name l = true ->
  filter keep_part (split_class is_path_sep (join (js "/") l ++ js "/") []) = l.
Proof.
  induction l as [|x l IH]; intros Hl; [reflexivity|].
  simpl in Hl. apply andb_true_iff in Hl as [Hx Hl].
  destruct (path_name_parts _ Hx) as [Hne Hsep].
  assert (Hkeep : keep_part x = true) by (unfold keep_part; destruct x; [congruence|reflexivity]).
  destruct l as [|y l'].
  - cbn [join]. rewrite split_class_word by exact Hsep. change (js "/") with ["/"%char].
    cbn [app split_class]. change (is_path_sep "/"%char) with true. cbn iota. cbn [filter app].
    rewrite Hkeep. reflexivity.
  - change (join (js "/") (x :: y :: l')) with (x ++ js "/" ++ join (js "/") (y :: l')).
    rewrite <- !app_assoc, split_class_word by exact Hsep. change (js "/") with ["/"%char] at 1.
    cbn [app split_class].
    change (is_path_sep "/"%char) with true. cbn iota. cbn [filter].
    rewrite Hkeep. f_equal. apply IH, Hl.
Qed.

(** For items that are plain names, [FilePath.toString] of an unanchored
    path gives a string that [FilePath.fromString] parses back to the same
    items, with ["root"] put in front when it was not the first item. *)
Theorem toString_fromString_round_trip fs l :
  forallb path_name l = true ->
  exists s, FilePath_toString fs (mkFilePath l None) = Ok s /\
    FilePath_fromString s
    = mkFilePath (if match l with x :: _ => jstr_eqb x (js "root") | [] => false end
                  then l else js "root" :: l) None.
Proof.
  intros Hl. eexists; split; [reflexivity|].
  unfold items_toString, FilePath_fromString. cbn [items].
  destruct l as [|x l'].
  - reflexivity.
  - cbn [nth_opt nth_error].
    destruct (jstr_eqb x (js "root")) eqn:Ex.
    + rewrite fromString_join by exact Hl. reflexivity.
    + change (js "root/" ++ join (js "/") (x :: l') ++ js "/")
        with (join (js "/") (js "root" :: x :: l') ++ js "/").
      rewrite fromString_join; [reflexivity|].
      simpl forallb. simpl in Hl. rewrite Hl. reflexivity.
Qed.

Lemma placed_root_dir fs rt r k :
  placed fs rt r k -> exists f0, file_at fs rt = Some f0 /\ is_directory f0 = true.
Proof. induction 1; eauto. Qed.

Lemma fromRoot_placed fs rt r k :
  placed fs rt r k -> forall f fuel, file_at fs r = Some f -> k < fuel ->
  exists names, FilePath_fromRoot fs fuel (file_path f) = Ok (mkFilePath (js "root" :: names) None)
    /\ forallb path_name names = true /\ getFile_loop fs names rt = RFile r.
Proof.
  induction 1 as [f0 Hf0 Hd Hp Hn|a fa b fb k Hpl IH Ha Hda Hb Hpb Hfind Hname];
    intros f fuel Hf Hlt.
  - rewrite Hf0 in Hf. injection Hf as <-. exists [].
    unfold file_path. rewrite Hp, Hn. destruct fuel; [lia|].
    split; [reflexivity|split; reflexivity].
  - rewrite Hb in Hf. injection Hf as <-.
    destruct fuel as [|n]; [lia|].
    destruct (IH fa n Ha ltac:(lia)) as (names & Hroot & Hnames & Hloop).
    exists (names ++ [fname fb]).
    unfold file_path at 1. rewrite Hpb. cbn [FilePath_fromRoot relativeTo].
    rewrite Ha, Hroot. cbn [bind]. split; [reflexivity|].
    split.
    + rewrite forallb_app, Hnames. simpl. rewrite Hname. reflexivity.
    + rewrite getFile_loop_app_eq, Hloop.
      destruct (path_name_not_special _ Hname) as (H1 & H2 & H3).
      cbn [getFile_loop]. rewrite H1, H2, H3, Ha, Hda, Hfind. reflexivity.
Qed.

(** For a file reachable by names from the root, the string of its
    [path] ([fromRoot], then [toString]) resolves back to the file through
    [FileSystem.getFile], whatever the current directory. *)
Theorem file_path_resolves fs rt cwd r k f :
  placed fs rt r k -> k < List.length fs -> file_at fs r = Some f ->
  exists s, FilePath_toString fs (file_path f) = Ok s /\
    FileSystem_getFile (mkFileSystem fs rt cwd) (PAString s) = RFile r.
Proof.
  intros Hpl Hk Hf.
  destruct (fromRoot_placed _ _ _ _ Hpl f (S (List.length fs)) Hf ltac:(lia))
    as (names & Hroot & Hnames & Hloop).
  destruct (placed_root_dir _ _ _ _ Hpl) as (f0 & Hf0 & Hd0).
  exists (items_toString (js "root" :: names)). split.
  - unfold FilePath_toString. unfold file_path in *. cbn [relativeTo] in *.
    destruct (parent f) eqn:Hp.
    + rewrite Hroot. reflexivity.
    + cbn [FilePath_fromRoot relativeTo] in Hroot. injection Hroot as Hi Hn. subst names. rewrite Hi. reflexivity.
  - unfold FileSystem_getFile, FilePath_from, FilePath_fromString, items_toString.
    cbn [nth_opt nth_error items]. change (jstr_eqb (js "root") (js "root")) with true. cbn iota.
    rewrite fromString_join by (simpl; exact Hnames).
    unfold DirectoryFile_getFile. cbn [files root]. rewrite Hf0, Hd0. exact Hloop.
Qed.

Lemma nth_error_update_nth_other {A} (l : list A) k j f :
  k <> j -> nth_error (update_nth l k f) j = nth_error l j.
Proof.
  revert k j; induction l as [|y l IH]; intros [|k] [|j] H; simpl; auto; try congruence.
Qed.

Lemma update_nth_names {A} (l : list A) k g (nm : A -> jstr) :
  (forall x, nm (g x) = nm x) ->
  forall r, option_map nm (nth_error (update_nth l k g) r) = option_map nm (nth_error l r).
Proof.
  intros Hg. revert k; induction l as [|y l IH]; intros [|k] [|r]; simpl; auto.
  rewrite Hg. reflexivity.
Qed.

Lemma find_child_same_names fs fs' cs n :
  (forall r, option_map fname (file_at fs' r) = option_map fname (file_at fs r)) ->
  find_child fs' cs n = find_child fs cs n.
Proof.
  intros Hs. induction cs as [|c cs IH]; [reflexivity|]. cbn [find_child].
  specialize (Hs c). destruct (file_at fs' c) as [f'|], (file_at fs c) as [f|];
    simpl in Hs; try discriminate; [|reflexivity].
  injection Hs as ->. rewrite IH. reflexivity.
Qed.

Lemma find_child_app_one fs cs c n :
  find_child fs (cs ++ [c]) n
  = match find_child fs cs n with Ok None => find_child fs [c] n | other => other end.
Proof.
  induction cs as [|x cs IH]; [simpl; destruct (find_child fs [c] n) as [[]|]; reflexivity|].
  cbn [app find_child]. destruct (file_at fs x); [|reflexivity].
  destruct (jstr_eqb _ n); [reflexivity|]. exact IH.
Qed.

Lemma find_child_in fs cs n x : find_child fs cs n = Ok (Some x) -> In x cs.
Proof.
  induction cs as [|c cs IH]; cbn [find_child]; [discriminate|].
  destruct (file_at fs c); [|discriminate].
  destruct (jstr_eqb _ n); [intros H; injection H as ->; left; reflexivity|].
  intros H; right; apply IH, H.
Qed.

Lemma filter_ids_spec fs cs id cs' :
  filter_ids fs cs id = Ok cs' ->
  forall x, In x cs' -> exists f, file_at fs x = Some f /\ fid f <> id.
Proof.
  revert cs'; induction cs as [|c cs IH]; intros cs' H x Hx; cbn [filter_ids] in H.
  - injection H as <-. destruct Hx.
  - destruct (file_at fs c) as [f|] eqn:Hc; [|discriminate].
    destruct (filter_ids fs cs id) as [rest|] eqn:Hr; cbn [bind] in H; [|discriminate].
    injection H as <-. destruct (Nat.eqb (fid f) id) eqn:E.
    + apply (IH rest eq_refl x Hx).
    + destruct Hx as [<-|Hx].
      * exists f. split; [exact Hc|]. apply Nat.eqb_neq, E.
      * apply (IH rest eq_refl x Hx).
Qed.

(** After [d.addChild(c)], with [c] not in [d] before and no other child
    of [d] with its name, the name of [c] resolves from [d] to [c], and
    [name/..] back to [d]. *)
Theorem addChild_then_found fs d c fd fc :
  d <> c -> file_at fs d = Some fd -> is_directory fd = true -> file_at fs c = Some fc ->
  path_name (fname fc) = true -> find_child fs (children fd) (fname fc) = Ok None ->
  getFile_loop (addChild fs d c) [fname fc] d = RFile c
  /\ getFile_loop (addChild fs d c) [fname fc; js ".."] d = RFile d.
Proof.
  intros Hdc Hd Hdir Hc Hn Hnone.
  assert (Hd1 : file_at (addChild fs d c) d = Some (set_children fd (children fd ++ [c]))).
  { unfold addChild, file_at. rewrite nth_error_update_nth_other by congruence.
    apply (nth_error_update_nth_same fs d (fun f => set_children f (children f ++ [c])) fd Hd). }
  assert (Hc1 : file_at (update_nth fs d (fun f => set_children f (children f ++ [c]))) c = Some fc).
  { unfold file_at. rewrite nth_error_update_nth_other by congruence. exact Hc. }
  assert (Hc2 : file_at (addChild fs d c) c = Some (set_parent fc (Some d))).
  { unfold addChild, file_at. exact (nth_error_update_nth_same _ c (fun f => set_parent f (Some d)) fc Hc1). }
  assert (Hnames : forall r, option_map fname (file_at (addChild fs d c) r)
                            = option_map fname (file_at fs r)).
  { intros r. unfold addChild, file_at.
    rewrite (update_nth_names _ c (fun f => set_parent f (Some d)) fname (fun x => eq_refl)).
    apply (update_nth_names fs d (fun f => set_children f (children f ++ [c])) fname (fun x => eq_refl)). }
  assert (Hfind : find_child (addChild fs d c) (children fd ++ [c]) (fname fc) = Ok (Some c)).
  { rewrite (find_child_same_names fs (addChild fs d c) _ _ Hnames). rewrite find_child_app_one, Hnone.
    cbn [find_child]. rewrite Hc. rewrite (proj2 (jstr_eqb_eq _ _) eq_refl). reflexivity. }
  destruct (path_name_not_special _ Hn) as (H1 & H2 & H3).
  split.
  - cbn [getFile_loop]. rewrite H1, H2, H3, Hd1.
    change (is_directory (set_children fd (children fd ++ [c]))) with (is_directory fd).
    rewrite Hdir. change (children (set_children fd (children fd ++ [c]))) with (children fd ++ [c]).
    rewrite Hfind. reflexivity.
  - cbn [getFile_loop]. rewrite H1, H2, H3, Hd1.
    change (is_directory (set_children fd (children fd ++ [c]))) with (is_directory fd).
    rewrite Hdir. change (children (set_children fd (children fd ++ [c]))) with (children fd ++ [c]).
    rewrite Hfind. cbn [getFile_loop].
    rewrite Hc2. reflexivity.
Qed.

(** After a successful [d.deleteChild(c)], no name resolves from [d] to
    [c]. *)
Theorem deleteChild_not_found fs d c fs' n :
  deleteChild fs d c = Ok fs' -> path_name n = true -> getFile_loop fs' [n] d <> RFile c.
Proof.
  unfold deleteChild. intros Hdel Hn.
  destruct (file_at fs c) as [child|] eqn:Hc; [|discriminate].
  destruct (file_at fs d) as [dir|] eqn:Hd; [|discriminate].
  destruct (filter_ids fs (children dir) (fid child)) as [cs|] eqn:Hf; cbn [bind] in Hdel; [|discriminate].
  injection Hdel as <-.
  destruct (path_name_not_special _ Hn) as (H1 & H2 & H3).
  cbn [getFile_loop]. rewrite H1, H2, H3.
  unfold file_at at 1. rewrite (nth_error_update_nth_same fs d (fun f => set_children f cs) dir Hd).
  change (is_directory (set_children dir cs)) with (is_directory dir).
  change (children (set_children dir cs)) with cs.
  destruct (is_directory dir); [|discriminate].
  rewrite (find_child_same_names fs (update_nth fs d (fun f => set_children f cs)) cs n
             (update_nth_names fs d (fun f => set_children f cs) fname (fun x => eq_refl))).
  destruct (find_child fs cs n) as [[x|]|] eqn:Hx; try discriminate.
  cbn [getFile_loop]. intros Heq. injection Heq as ->.
  destruct (filter_ids_spec _ _ _ _ Hf c (find_child_in _ _ _ _ Hx)) as (f & Hfc & Hid).
  rewrite Hc in Hfc. injection Hfc as <-. apply Hid. reflexivity.
Qed.

Lemma placed_sample_b : placed sample_files 0 3 2.
Proof.
  eapply (placed_child _ _ 1); [|reflexivity..].
  eapply (placed_child _ _ 0); [|reflexivity..].
  eapply placed_root; reflexivity.
Defined.

Lemma getFile_through_plain_file_witness :
  getFile_loop sample_files [js "a.txt"] 0 = RFile 2 /\
  getFile_loop sample_files ([js "a.txt"] ++ js "x" :: []) 0 = RTypeError.
Proof.
  split; [reflexivity|].
  apply (getFile_through_plain_file sample_files [js "a.txt"] (js "x") [] 0 2
           (mkTerminalFile 2 (js "a.txt") FTPlainText (Some 0) [])); reflexivity.
Defined.

Lemma tilde_goes_to_root_witness :
  getFile_loop sample_files (js "~" :: [js "docs"]) 3 = getFile_loop sample_files [js "docs"] 0.
Proof.
  apply (tilde_goes_to_root sample_files 0 3 2 [js "docs"] placed_sample_b). simpl; lia.
Defined.

Lemma toString_fromString_round_trip_witness :
  exists s, FilePath_toString sample_files (mkFilePath [js "docs"; js "b.txt"] None) = Ok s /\
    FilePath_fromString s = mkFilePath [js "root"; js "docs"; js "b.txt"] None.
Proof.
  apply (toString_fromString_round_trip sample_files [js "docs"; js "b.txt"]). reflexivity.
Defined.

Lemma file_path_resolves_witness :
  exists s, FilePath_toString sample_files (file_path sample_file_b) = Ok s /\
    FileSystem_getFile (mkFileSystem sample_files 0 1) (PAString s) = RFile 3.
Proof.
  apply (file_path_resolves sample_files 0 1 3 2 sample_file_b placed_sample_b); [simpl; lia | reflexivity].
Defined.

Lemma addChild_then_found_witness :
  getFile_loop (addChild sample_files_c 1 4) [js "c.txt"] 1 = RFile 4
  /\ getFile_loop (addChild sample_files_c 1 4) [js "c.txt"; js ".."] 1 = RFile 1.
Proof.
  apply (addChild_then_found sample_files_c 1 4
           (mkTerminalFile 1 (js "docs") FTDirectory (Some 0) [3])
           (mkTerminalFile 4 (js "c.txt") FTPlainText None [])); try reflexivity; lia.
Defined.

Lemma deleteChild_not_found_witness :
  deleteChild sample_files 1 3
    = Ok (update_nth sample_files 1 (fun f => set_children f [])) /\
  getFile_loop (update_nth sample_files 1 (fun f => set_children f [])) [js "b.txt"] 1 <> RFile 3.
Proof.
  split; [reflexivity|].
  apply (deleteChild_not_found sample_files 1 3); reflexivity.
Defined.

Lemma ed_nil_r a : edit_distance a [] = List.length a.
Proof. destruct a; reflexivity. Qed.

Lemma ed_cons x a y b :
  edit_distance (x :: a) (y :: b)
  = Nat.min (Nat.min (edit_distance a (y :: b) + 1) (edit_distance (x :: a) b + 1))
            (edit_distance a b + (if ascii_eqb x y then 0 else 1)).
Proof. reflexivity. Qed.

Lemma firstn_snoc (l : jstr) k a r : skipn k l = a :: r -> firstn (S k) l = firstn k l ++ [a].
Proof.
  revert k. induction l as [|x l IH]; intros k H; destruct k; try discriminate.
  - simpl in H. injection H as -> ->. reflexivity.
  - cbn [skipn] in H. change (x :: firstn (S k) l = (x :: firstn k l) ++ [a]).
    rewrite (IH k H). reflexivity.
Qed.

Lemma skipn_S_of (l : jstr) k a r : skipn k l = a :: r -> skipn (S k) l = r.
Proof.
  revert k. induction l as [|x l IH]; intros k H; destruct k; try discriminate.
  - simpl in H. injection H as -> ->. reflexivity.
  - simpl in H |- *. exact (IH k H).
Qed.

Lemma lev_row_spec s1 B c rest : forall k, skipn k s1 = rest ->
  lev_row rest c (map (ed_col s1 B) (seq k (S (List.length rest)))) (ed_col s1 (c :: B) k)
  = map (ed_col s1 (c :: B)) (seq (S k) (List.length rest)).
Proof.
  induction rest as [|a rest IH]; intros k Hk; [reflexivity|].
  cbn [List.length seq map lev_row].
  assert (Hv : Nat.min (Nat.min (ed_col s1 (c :: B) k + 1) (ed_col s1 B (S k) + 1))
                       (ed_col s1 B k + (if ascii_eqb a c then 0 else 1))
               = ed_col s1 (c :: B) (S k)).
  { unfold ed_col. rewrite (firstn_snoc s1 k a rest Hk), rev_app_distr. reflexivity. }
  rewrite Hv. f_equal.
  change (ed_col s1 B (S k) :: map (ed_col s1 B) (seq (S (S k)) (List.length rest)))
    with (map (ed_col s1 B) (seq (S k) (S (List.length rest)))).
  apply IH. exact (skipn_S_of s1 k a rest Hk).
Qed.

Lemma lev_rows_spec s1 rest : forall B,
  lev_rows s1 rest (ed_row s1 B) (List.length B) = ed_row s1 (rev rest ++ B).
Proof.
  induction rest as [|c rest IH]; intros B; [reflexivity|].
  cbn [lev_rows]. 
  assert (Hrow : S (List.length B) :: lev_row s1 c (ed_row s1 B) (S (List.length B))
                 = ed_row s1 (c :: B)).
  { unfold ed_row. 
    pose proof (lev_row_spec s1 B c s1 0 eq_refl) as H.
    assert (Hl : ed_col s1 (c :: B) 0 = S (List.length B)) by reflexivity.
    rewrite Hl in H. rewrite H. reflexivity. }
  rewrite Hrow. change (S (List.length B)) with (List.length (c :: B)).
  rewrite IH. cbn [rev]. rewrite <- app_assoc. reflexivity.
Qed.

Lemma levenshtein_edit_distance_eq str1 str2 :
  levenshteinDistance str1 str2 = edit_distance (rev str1) (rev str2).
Proof.
  unfold levenshteinDistance.
  assert (H0 : seq 0 (S (List.length str1)) = ed_row str1 []).
  { unfold ed_row. rewrite <- (map_id (seq 0 (S (List.length str1)))) at 1.
    apply map_ext_in. intros i Hi. apply in_seq in Hi.
    unfold ed_col. rewrite ed_nil_r, length_rev, firstn_length_le; lia. }
  rewrite H0. change 0 with (List.length (@nil ascii)) at 2.
  rewrite lev_rows_spec, app_nil_r. unfold ed_row.
  rewrite nth_indep with (d' := ed_col str1 (rev str2) 0) by (rewrite length_map, length_seq; lia).
  rewrite map_nth, seq_nth by lia. unfold ed_col. rewrite Nat.add_0_l, firstn_all. reflexivity.
Qed.

Lemma ascii_eqb_sym a b : ascii_eqb a b = ascii_eqb b a.
Proof. unfold ascii_eqb. destruct (Ascii.eqb_spec a b), (Ascii.eqb_spec b a); congruence. Qed.

Lemma ed_sym a : forall b, edit_distance a b = edit_distance b a.
Proof.
  induction a as [|x a IHa]; intros b.
  - rewrite ed_nil_r. reflexivity.
  - induction b as [|y b IHb].
    + rewrite ed_nil_r. reflexivity.
    + rewrite !ed_cons, IHa, IHb, (IHa b), ascii_eqb_sym. lia.
Qed.

Lemma ed_refl a : edit_distance a a = 0.
Proof.
  induction a as [|x a IH]; [reflexivity|].
  rewrite ed_cons, IH. unfold ascii_eqb. rewrite Ascii.eqb_refl. lia.
Qed.

Lemma ed_zero a : forall b, edit_distance a b = 0 -> a = b.
Proof.
  induction a as [|x a IH]; intros [|y b] H; try discriminate; [reflexivity|].
  rewrite ed_cons in H. unfold ascii_eqb in H.
  destruct (Ascii.eqb_spec x y); [|lia].
  subst y. rewrite (IH b) by lia. reflexivity.
Qed.

Lemma ed_bounds a : forall b,
  List.length a - List.length b <= edit_distance a b
  /\ List.length b - List.length a <= edit_distance a b
  /\ edit_distance a b <= Nat.max (List.length a) (List.length b).
Proof.
  induction a as [|x a IHa]; intros b.
  - cbn [edit_distance List.length]. lia.
  - induction b as [|y b IHb].
    + rewrite ed_nil_r. cbn [List.length]. lia.
    + rewrite ed_cons. cbn [List.length].
      destruct (IHa (y :: b)) as (H1 & H2 & H3). destruct IHb as (H4 & H5 & H6).
      destruct (IHa b) as (H7 & H8 & H9). cbn [List.length] in *.
      destruct (ascii_eqb x y); lia.
Qed.

(** [levenshteinDistance] is [0] exactly for two equal strings. *)
Theorem levenshtein_zero_iff str1 str2 :
  levenshteinDistance str1 str2 = 0 <-> str1 = str2.
Proof.
  rewrite levenshtein_edit_distance_eq. split.
  - intros H. rewrite <- (rev_involutive str1), <- (rev_involutive str2).
    f_equal. exact (ed_zero _ _ H).
  - intros ->. apply ed_refl.
Qed.

(** [levenshteinDistance] does not depend on the order of its arguments. *)
Theorem levenshtein_sym str1 str2 :
  levenshteinDistance str1 str2 = levenshteinDistance str2 str1.
Proof. rewrite !levenshtein_edit_distance_eq. apply ed_sym. Qed.

(** [levenshteinDistance] is at least the difference of the two lengths
    and at most the larger length. *)
Theorem levenshtein_bounds str1 str2 :
  List.length str1 - List.length str2 <= levenshteinDistance str1 str2
  /\ List.length str2 - List.length str1 <= levenshteinDistance str1 str2
  /\ levenshteinDistance str1 str2 <= Nat.max (List.length str1) (List.length str2).
Proof.
  rewrite levenshtein_edit_distance_eq, <- (length_rev str1), <- (length_rev str2).
  apply ed_bounds.
Qed.

Lemma trim_front_skipn len s : trim_front len s = skipn (List.length s - len) s.
Proof.
  induction s as [|x s IH]; [reflexivity|].
  cbn [trim_front List.length]. destruct (len <? S (List.length s)) eqn:E.
  - apply Nat.ltb_lt in E. rewrite IH. replace (S (List.length s) - len) with (S (List.length s - len)) by lia.
    reflexivity.
  - apply Nat.ltb_ge in E. replace (S (List.length s) - len) with 0 by lia. reflexivity.
Qed.

Lemma pad_both_some char len : char <> [] -> forall fuel s,
  len <= List.length s + 2 * fuel ->
  exists p, pad_both fuel char s len = Some p /\ len <= List.length p.
Proof.
  intros Hc. induction fuel as [|f IH]; intros s Hl; cbn [pad_both].
  - destruct (List.length s <? len) eqn:E; [apply Nat.ltb_lt in E; lia|].
    apply Nat.ltb_ge in E. eauto.
  - destruct (List.length s <? len) eqn:E.
    + apply IH. rewrite !length_app. destruct char; [congruence|]. cbn [List.length]. lia.
    + apply Nat.ltb_ge in E. eauto.
Qed.

Lemma pad_both_empty len : forall fuel s,
  List.length s < len -> pad_both fuel [] s len = None.
Proof.
  induction fuel as [|f IH]; intros s Hl; cbn [pad_both];
    (destruct (List.length s <? len) eqn:E; [|apply Nat.ltb_ge in E; lia]); [reflexivity|].
  rewrite app_nil_r. apply IH; exact Hl.
Qed.

Lemma pad_both_long char len fuel s :
  len <= List.length s -> pad_both fuel char s len = Some s.
Proof.
  intros Hl. destruct fuel; cbn [pad_both];
    destruct (List.length s <? len) eqn:E; try reflexivity; apply Nat.ltb_lt in E; lia.
Qed.

Ltac div2_facts x :=
  pose proof (Nat.div_mod x 2 ltac:(lia)); pose proof (Nat.mod_upper_bound x 2 ltac:(lia)).

Lemma pad_both_one c len : forall fuel s,
  len <= List.length s + 2 * fuel ->
  pad_both fuel [c] s len
  = Some (repeat c ((len - List.length s + 1) / 2) ++ s ++ repeat c ((len - List.length s + 1) / 2)).
Proof.
  induction fuel as [|f IH]; intros s Hl; cbn [pad_both].
  - destruct (List.length s <? len) eqn:E; [apply Nat.ltb_lt in E; lia|].
    apply Nat.ltb_ge in E. replace ((len - List.length s + 1) / 2) with 0; [cbn [repeat app]; rewrite app_nil_r; reflexivity|].
    replace (len - List.length s) with 0 by lia. reflexivity.
  - destruct (List.length s <? len) eqn:E.
    + apply Nat.ltb_lt in E. rewrite IH by (rewrite !length_app; cbn [List.length]; lia).
      rewrite !length_app. cbn [List.length].
      set (n := (len - List.length s + 1) / 2).
      assert (Hn : (len - (1 + (List.length s + 1)) + 1) / 2 + 1 = n).
      { unfold n. div2_facts (len - (1 + (List.length s + 1)) + 1).
        div2_facts (len - List.length s + 1). lia. }
      set (m := (len - (1 + (List.length s + 1)) + 1) / 2) in *.
      rewrite <- Hn, Nat.add_comm. cbn [repeat].
      assert (Hc : repeat c m ++ [c] = c :: repeat c m)
        by (clear; induction m as [|m IHm]; [reflexivity|]; cbn; rewrite IHm; reflexivity).
      rewrite <- Hc at 1. rewrite <- !app_assoc. reflexivity.
    + apply Nat.ltb_ge in E. replace ((len - List.length s + 1) / 2) with 0; [cbn [repeat app]; rewrite app_nil_r; reflexivity|].
      replace (len - List.length s) with 0 by lia. reflexivity.
Qed.

(** With a non-empty [char], [stringPadMiddle] returns a string of
    exactly [length] characters. *)
Theorem stringPadMiddle_length string len char :
  char <> [] -> exists r, stringPadMiddle string len char = Some r /\ List.length r = len.
Proof.
  intros Hc. unfold stringPadMiddle.
  destruct (pad_both_some char len Hc len string ltac:(lia)) as (p & -> & Hp).
  eexists; split; [reflexivity|]. rewrite trim_front_skipn, length_skipn. lia.
Qed.

(** With an empty [char] and a string shorter than [length], the first
    loop of [stringPadMiddle] never ends. *)
Theorem stringPadMiddle_empty_char_diverges string len :
  List.length string < len -> stringPadMiddle string len [] = None.
Proof. intros H. unfold stringPadMiddle. rewrite pad_both_empty by exact H. reflexivity. Qed.

(** A string at least [length] long loses characters at its start: the
    result is its last [length] characters. *)
Theorem stringPadMiddle_long string len char :
  len <= List.length string -> stringPadMiddle string len char = Some (skipn (List.length string - len) string).
Proof. intros H. unfold stringPadMiddle. rewrite pad_both_long by exact H. rewrite trim_front_skipn. reflexivity. Qed.

(** With a one-character pad, a string no longer than [length] is centred:
    [k] pads before it and [k] or [k + 1] after it, [length] in all. *)
Theorem stringPadMiddle_centered string len c :
  List.length string <= len ->
  exists k m, stringPadMiddle string len [c] = Some (repeat c k ++ string ++ repeat c m)
    /\ (m = k \/ m = S k) /\ k + List.length string + m = len.
Proof.
  intros H. unfold stringPadMiddle. rewrite pad_both_one by lia.
  rewrite trim_front_skipn, !length_app, repeat_length.
  set (n := (len - List.length string + 1) / 2).
  div2_facts (len - List.length string + 1). fold n in H0, H1.
  destruct (Nat.eq_dec (len - List.length string + 1) (2 * n + 1)) as [E|E].
  - exists n, n. match goal with |- context [skipn ?e _] => replace e with 0 by lia end.
    cbn [skipn]. split; [reflexivity|lia].
  - destruct n as [|n']; [lia|].
    exists n', (S n'). match goal with |- context [skipn ?e _] => replace e with 1 by lia end.
    split; [reflexivity|lia].
Qed.









Lemma no_adjacent_dup_tl l : no_adjacent_dup l = true -> no_adjacent_dup (tl l) = true.
Proof. destruct l as [|x [|y t]]; cbn; try reflexivity. intros H. apply andb_prop in H as [_ H]. exact H. Qed.

Lemma no_adjacent_dup_snoc l c :
  no_adjacent_dup l = true ->
  match last_item l with Some x => jstr_eqb x c = false | None => True end ->
  no_adjacent_dup (l ++ [c]) = true.
Proof.
  induction l as [|x t IH]; intros H Hl; [reflexivity|].
  destruct t as [|y t].
  - cbn in Hl |- *. rewrite Hl. reflexivity.
  - cbn [app no_adjacent_dup] in H |- *. apply andb_prop in H as [Hxy Ht].
    rewrite Hxy. cbn [andb]. apply IH; [exact Ht|].
    unfold last_item in Hl |- *. cbn [List.length] in Hl |- *.
    replace (S (List.length t) - 1) with (List.length t) by lia.
    replace (S (S (List.length t)) - 1) with (S (List.length t)) in Hl by lia.
    exact Hl.
Qed.

(** [addToHistory] keeps a history free of two equal consecutive entries
    that way. *)
Theorem addToHistory_no_adjacent_dup history m command :
  no_adjacent_dup history = true -> no_adjacent_dup (addToHistory history m command) = true.
Proof.
  intros H. unfold addToHistory.
  destruct (last_item history) as [l|] eqn:El.
  - destruct (jstr_eqb l command) eqn:Eq; [exact H|].
    assert (Hs : no_adjacent_dup (history ++ [command]) = true)
      by (apply no_adjacent_dup_snoc; [exact H | rewrite El; exact Eq]).
    destruct (exceeds _ m); [apply no_adjacent_dup_tl|]; exact Hs.
  - assert (Hs : no_adjacent_dup (history ++ [command]) = true)
      by (apply no_adjacent_dup_snoc; [exact H | rewrite El; exact I]).
    destruct (exceeds _ m); [apply no_adjacent_dup_tl|]; exact Hs.
Qed.

Lemma addToHistory_length history m command :
  List.length (addToHistory history (Some m) command)
  = if match last_item history with Some l => jstr_eqb l command | None => false end
    then List.length history
    else if (m <? Z.of_nat (S (List.length history)))%Z then List.length history
    else S (List.length history).
Proof.
  unfold addToHistory.
  destruct (match last_item history with Some l => jstr_eqb l command | None => false end);
    [reflexivity|].
  cbn [exceeds]. rewrite length_app. cbn [List.length]. rewrite Nat.add_1_r.
  destruct (m <? Z.of_nat (S (List.length history)))%Z.
  - destruct history; [reflexivity|]. cbn [app tl]. rewrite length_app. cbn [List.length]. lia.
  - rewrite length_app. cbn [List.length]. lia.
Qed.

(** A history no longer than [maxHistoryLength] stays so after
    [addToHistory]. *)
Theorem addToHistory_within_max history m command :
  (Z.of_nat (List.length history) <= m)%Z ->
  (Z.of_nat (List.length (addToHistory history (Some m) command)) <= m)%Z.
Proof.
  intros H. rewrite addToHistory_length.
  destruct (match last_item history with Some l => jstr_eqb l command | None => false end); [exact H|].
  destruct (m <? Z.of_nat (S (List.length history)))%Z eqn:E; [exact H|].
  apply Z.ltb_ge in E. exact E.
Qed.

(** A history longer than [maxHistoryLength] keeps its length through
    [addToHistory]: the single [shift] never brings it back to the
    limit. *)
Theorem addToHistory_over_max_keeps_length history m command :
  (m < Z.of_nat (List.length history))%Z ->
  List.length (addToHistory history (Some m) command) = List.length history.
Proof.
  intros H. rewrite addToHistory_length.
  destruct (match last_item history with Some l => jstr_eqb l command | None => false end); [reflexivity|].
  replace (m <? Z.of_nat (S (List.length history)))%Z with true; [reflexivity|].
  symmetry. apply Z.ltb_lt. lia.
Qed.












Lemma byte_pad_round_trip n : (n < 256)%nat ->
  option_map (fun p => (List.length p, parseInt16 p)) (byte_pad (float_of_Z (Z.of_nat n)))
  = Some (2, float_of_Z (Z.of_nat n)).
Proof.
  intros H. do 256 (destruct n as [|n]; [vm_compute; reflexivity|]). lia.
Qed.

Lemma byte_pad_spec n : (n < 256)%nat ->
  exists p, byte_pad (float_of_Z (Z.of_nat n)) = Some p /\ List.length p = 2
            /\ parseInt16 p = float_of_Z (Z.of_nat n).
Proof.
  intros H. pose proof (byte_pad_round_trip n H) as E.
  destruct (byte_pad (float_of_Z (Z.of_nat n))) as [p|]; [|discriminate].
  cbn in E. injection E as E1 E2. eauto.
Qed.

Lemma two_chars (p : jstr) : List.length p = 2 -> exists x y, p = [x; y].
Proof. destruct p as [|x [|y [|]]]; cbn; intros H; try discriminate. eauto. Qed.

(** Setting a colour whose components are integers from [0] to [255]
    through the setter of a colour setting, then reading the setting,
    gives back the components, with alpha [1]. *)
Theorem color_setting_round_trip d key cssKey zr zg zb alpha :
  (zr < 256)%nat -> (zg < 256)%nat -> (zb < 256)%nat ->
  let c := mkColor (float_of_Z (Z.of_nat zr)) (float_of_Z (Z.of_nat zg)) (float_of_Z (Z.of_nat zb)) alpha in
  exists d', set_color_setting d key cssKey c = Some d'
    /\ get_color_setting d' key = Ok (mkColor (r c) (g c) (b c) 1%float).
Proof.
  intros Hr Hg Hb c.
  destruct (byte_pad_spec zr Hr) as (pr & Hpr & Lr & Vr).
  destruct (byte_pad_spec zg Hg) as (pg & Hpg & Lg & Vg).
  destruct (byte_pad_spec zb Hb) as (pb & Hpb & Lb & Vb).
  unfold byte_pad in Hpr, Hpg, Hpb.
  destruct (toString16 (float_of_Z (Z.of_nat zr))) as [sr|] eqn:Er; [|discriminate].
  destruct (toString16 (float_of_Z (Z.of_nat zg))) as [sg|] eqn:Eg; [|discriminate].
  destruct (toString16 (float_of_Z (Z.of_nat zb))) as [sb|] eqn:Eb; [|discriminate].
  cbn [option_map] in Hpr, Hpg, Hpb. injection Hpr as Hpr. injection Hpg as Hpg. injection Hpb as Hpb.
  unfold set_color_setting, color_hex. subst c. cbn [r g b]. rewrite Er, Eg, Eb.
  change (js "0") with ["0"%char] in *. rewrite Hpr, Hpg, Hpb.
  eexists; split; [reflexivity|].
  unfold get_color_setting, data_get. cbn [localStorage setCSSProperty data_set setItem assoc_get].
  rewrite (proj2 (jstr_eqb_eq _ _) eq_refl).
  destruct (two_chars pr Lr) as (x1 & x2 & ->). destruct (two_chars pg Lg) as (y1 & y2 & ->).
  destruct (two_chars pb Lb) as (z1 & z2 & ->).
  unfold fromHex, new_Color. cbn. rewrite Vr, Vg, Vb. reflexivity.
Qed.

Lemma hex_digit_char_facts : forall x, is_hex_digit x = true ->
  is_str_whitespace x = false /\ ascii_eqb x "-"%char = false /\ ascii_eqb x "+"%char = false
  /\ ascii_eqb x "x"%char = false /\ ascii_eqb x "X"%char = false
  /\ (0 <=? digit_value x)%Z = true.
Proof.
  intros x; destruct x as [[] [] [] [] [] [] [] []]; vm_compute;
    intros H; first [discriminate | repeat split].
Qed.

Lemma digits_value_acc_nonneg ds : forall acc, (0 <= acc)%Z -> forallb is_hex_digit ds = true ->
  (0 <= fold_left (fun acc c => (acc * 16 + digit_value c)%Z) ds acc)%Z.
Proof.
  induction ds as [|c ds IH]; intros acc Ha H; [exact Ha|].
  cbn [forallb] in H. apply andb_prop in H as [Hc Hds].
  destruct (hex_digit_char_facts c Hc) as (_ & _ & _ & _ & _ & Hv). apply Z.leb_le in Hv.
  cbn [fold_left]. apply IH; [lia | exact Hds].
Qed.

Lemma take_while_all_true p (s : jstr) : forallb p s = true -> take_while p s = s.
Proof.
  induction s as [|c s IH]; [reflexivity|]. cbn [forallb take_while]. intros H.
  apply andb_prop in H as [-> Hs]. rewrite IH by exact Hs. reflexivity.
Qed.

Lemma parseInt16_hex_digits ds : ds <> [] -> forallb is_hex_digit ds = true ->
  parseInt16 ds = float_of_Z (digits_value 16 ds).
Proof.
  intros Hne H. destruct ds as [|x rest]; [congruence|].
  pose proof H as H'. cbn [forallb] in H'. apply andb_prop in H' as [Hx Hrest].
  destruct (hex_digit_char_facts x Hx) as (Hw & Hm & Hp & _ & _ & _).
  unfold parseInt16. cbn [drop_while]. rewrite Hw, Hm, Hp.
  replace (match x :: rest with
           | z :: x0 :: t => if ascii_eqb z "0"%char && (ascii_eqb x0 "x"%char || ascii_eqb x0 "X"%char)
                             then t else x :: rest
           | _ => x :: rest end) with (x :: rest).
  2:{ destruct rest as [|y t]; [reflexivity|].
      cbn [forallb] in Hrest. apply andb_prop in Hrest as [Hy _].
      destruct (hex_digit_char_facts y Hy) as (_ & _ & _ & Hx' & HX' & _).
      rewrite Hx', HX', andb_false_r. reflexivity. }
  rewrite take_while_all_true by exact H.
  assert (Hv : (0 <= digits_value 16 (x :: rest))%Z)
    by (apply digits_value_acc_nonneg; [lia | exact H]).
  destruct (digits_value 16 (x :: rest)) eqn:E; [reflexivity | reflexivity | lia].
Qed.

(** [Color.fromHex] reads a three-digit [#xyz] as red [0xxy], green
    [0xz] and a [NaN] blue. *)
Theorem fromHex_shorthand x y z :
  is_hex_digit x = true -> is_hex_digit y = true -> is_hex_digit z = true ->
  fromHex ["#"%char; x; y; z]
  = mkColor (float_of_Z (digit_value x * 16 + digit_value y)) (float_of_Z (digit_value z)) nan 1.
Proof.
  intros Hx Hy Hz. unfold fromHex, new_Color.
  change (starts_with ["#"%char; x; y; z] (js "#")) with true. cbn iota.
  change (substring ["#"%char; x; y; z] 1 3) with [x; y].
  change (substring ["#"%char; x; y; z] 3 5) with [z].
  change (substring ["#"%char; x; y; z] 5 7) with (@nil ascii).
  rewrite !parseInt16_hex_digits by (first [discriminate | cbn [forallb]; rewrite ?Hx, ?Hy, ?Hz; reflexivity]).
  reflexivity.
Qed.


Lemma stringPadMiddle_length_witness :
  exists r, stringPadMiddle (js "ab") 5 (js "xy") = Some r /\ List.length r = 5.
Proof. apply stringPadMiddle_length. discriminate. Defined.

Lemma stringPadMiddle_empty_char_diverges_witness : stringPadMiddle (js "ab") 5 [] = None.
Proof. apply stringPadMiddle_empty_char_diverges. simpl; lia. Defined.

Lemma stringPadMiddle_long_witness :
  stringPadMiddle (js "abcdef") 4 (js " ") = Some (js "cdef").
Proof. apply (stringPadMiddle_long (js "abcdef") 4 (js " ")). simpl; lia. Defined.

Lemma stringPadMiddle_centered_witness :
  exists k m, stringPadMiddle (js "ab") 5 [" "%char]
              = Some (repeat " "%char k ++ js "ab" ++ repeat " "%char m)
    /\ (m = k \/ m = S k) /\ k + 2 + m = 5.
Proof. apply (stringPadMiddle_centered (js "ab") 5 " "%char). simpl; lia. Defined.

Lemma addToHistory_no_adjacent_dup_witness :
  no_adjacent_dup (addToHistory [js "ls"; js "cd"] (Some 100%Z) (js "cd")) = true.
Proof. apply addToHistory_no_adjacent_dup. reflexivity. Defined.

Lemma addToHistory_within_max_witness :
  (Z.of_nat (List.length (addToHistory [js "ls"; js "cd"] (Some 2%Z) (js "pwd"))) <= 2)%Z.
Proof. apply addToHistory_within_max. simpl; lia. Defined.

Lemma addToHistory_over_max_keeps_length_witness :
  List.length (addToHistory [js "ls"; js "cd"; js "pwd"] (Some 1%Z) (js "echo")) = 3.
Proof. apply (addToHistory_over_max_keeps_length [js "ls"; js "cd"; js "pwd"] 1%Z (js "echo")). simpl; lia. Defined.




Lemma color_setting_round_trip_witness :
  exists d', set_background (mkTerminalData [] []) (mkColor (float_of_Z 3) (float_of_Z 200) (float_of_Z 255) 0.5)
             = Some d'
    /\ get_background d' = Ok (mkColor (float_of_Z 3) (float_of_Z 200) (float_of_Z 255) 1).
Proof.
  apply (color_setting_round_trip (mkTerminalData [] []) (js "background") (js "--background")
           3 200 255 0.5); lia.
Defined.

Lemma fromHex_shorthand_witness :
  fromHex ["#"%char; "a"%char; "b"%char; "c"%char]
  = mkColor (float_of_Z (10 * 16 + 11)) (float_of_Z 12) nan 1.
Proof. apply fromHex_shorthand; reflexivity. Defined.
